(** * MagmaConnect: nearest-node selection over a geolocation cache

    A shallow embedding of the [MagmaConnect] plugin class
    (the plugin source, [class MagmaConnect extends Plugin]) together with
    the properties its specification states about it.

    Modelling conventions.
    - A JavaScript [number] is idealised as a real number ([R]): the
      trigonometric functions of [Math] have no executable counterpart,
      and rounding, [NaN] and the infinities are outside the model.
    - [Map<string, LatLon>] is a [gmap]; the node registry
      [manager.nodes] is the list of its values in insertion order.
    - A property read on an ordinary object ([map[key]],
      [nodeLocations[id]]) finds the properties the object holds itself
      and, behind them, the members every object inherits from
      [Object.prototype]; what such a read gives is a [member].
    - The node cache of the model holds coordinates only: a write that
      would put another value into [nodeGeo] (the distance to it is
      [NaN]) has no result in the model.
    - A value that may be a [Promise] is a [maybe_async]; an [async]
      function always produces the [Later] alternative.
    - Code that can throw returns a [completion]. *)

From Stdlib Require Import Reals Lra Ascii.
From stdpp Require Import gmap strings list.

(** ** Coordinates and great-circle distance *)

(** [type LatLon = { lat: number; lon: number }] *)
Record LatLon : Type := mkLatLon { lat : R; lon : R }.

(** The declared ranges of a Coordinate (never checked by the code). *)
Definition valid_coordinate (c : LatLon) : Prop :=
  (-90 <= lat c <= 90 /\ -180 <= lon c <= 180)%R.

Module Geo.
#[local] Open Scope R_scope.

(** [const toRad = (x: number) => (x * Math.PI) / 180] *)
Definition toRad (x : R) : R := (x * PI) / 180.

(** [const R = 6371; // km] *)
Definition R_km : R := 6371.

(** The quantity [h] of [haversineKm]. *)
Definition hav (a b : LatLon) : R :=
  let dLat := toRad (lat b - lat a) in
  let dLon := toRad (lon b - lon a) in
  let lat1 := toRad (lat a) in
  let lat2 := toRad (lat b) in
  let sinDLat := sin (dLat / 2) in
  let sinDLon := sin (dLon / 2) in
  sinDLat * sinDLat + cos lat1 * cos lat2 * sinDLon * sinDLon.

(** [haversineKm]: [2 * R * Math.asin(Math.min(1, Math.sqrt(h)))]. *)
Definition haversineKm (a b : LatLon) : R :=
  2 * R_km * asin (Rmin 1 (sqrt (hav a b))).

End Geo.

(** ** Strings *)

Module Str.

(** [s.split(sep)] for a separator of one character: the segments
    between the occurrences of [sep], never an empty array. *)
Fixpoint split (sep : ascii) (s : string) : list string :=
  match s with
  | EmptyString => [EmptyString]
  | String c r =>
      if Ascii.eqb c sep then EmptyString :: split sep r
      else match split sep r with
           | seg :: segs => String c seg :: segs
           | [] => [String c EmptyString]
           end
  end.

(** The class [\d] of a regular expression without the [u] flag. *)
Definition is_digit (c : ascii) : bool :=
  (48 <=? nat_of_ascii c)%nat && (nat_of_ascii c <=? 57)%nat.

(** Does [\d*] match the whole of [s]? *)
Fixpoint all_digits (s : string) : bool :=
  match s with
  | EmptyString => true
  | String c r => is_digit c && all_digits r
  end.

(** [s.replace(/\d+$/, '')]: the match of [\d+$] is looked for from the
    left, and the first position from which a non-empty run of digits
    reaches the end of the input is where the string is cut. *)
Fixpoint replace_trailing_digits (s : string) : string :=
  match s with
  | EmptyString => EmptyString
  | String c r =>
      if all_digits (String c r) then EmptyString
      else String c (replace_trailing_digits r)
  end.

Definition lower_ascii (c : ascii) : ascii :=
  let n := nat_of_ascii c in
  if (65 <=? n)%nat && (n <=? 90)%nat then ascii_of_nat (n + 32) else c.

(** [s.toLowerCase()] on a string of ASCII characters. *)
Fixpoint toLowerCase (s : string) : string :=
  match s with
  | EmptyString => EmptyString
  | String c r => String (lower_ascii c) (toLowerCase r)
  end.

(** [x || undefined] for a string [x]: the empty string is falsy. *)
Definition truthy (s : string) : bool :=
  match s with EmptyString => false | String _ _ => true end.

End Str.

(** ** Endpoint region parser *)

(** [parseDiscordRegionFromEndpoint] *)
Definition parseDiscordRegionFromEndpoint (endpoint : string) : option string :=
  let host := hd EmptyString (Str.split ":" endpoint) in
  let parts := Str.split "." host in
  if (length parts <? 3)%nat then None
  else
    let first := hd EmptyString parts in
    let region := Str.replace_trailing_digits first in
    if Str.truthy region then Some region else None.

(** The parser in the words of the specification, on a host name and
    an optional port: at least three dot-separated segments are
    required, and the region code is the first segment without its
    trailing run of digits, unless nothing is left of it. *)
Module ParserSpec.

Fixpoint drop_while {A} (p : A -> bool) (l : list A) : list A :=
  match l with
  | [] => []
  | x :: r => if p x then drop_while p r else l
  end.

Fixpoint take_until (sep : ascii) (l : list ascii) : list ascii :=
  match l with
  | [] => []
  | c :: r => if Ascii.eqb c sep then [] else c :: take_until sep r
  end.

Definition count_sep (sep : ascii) (l : list ascii) : nat :=
  length (filter (fun c => c = sep) l).

Definition segments (hostname : string) : nat :=
  S (count_sep "." (String.list_ascii_of_string hostname)).

Definition first_segment (hostname : string) : list ascii :=
  take_until "." (String.list_ascii_of_string hostname).

Definition strip_trailing_digits (l : list ascii) : list ascii :=
  rev (drop_while Str.is_digit (rev l)).

Definition region_of_hostname (hostname : string) : option string :=
  if (segments hostname <? 3)%nat then None
  else match strip_trailing_digits (first_segment hostname) with
       | [] => None
       | c :: r => Some (String.string_of_list_ascii (c :: r))
       end.

Definition no_colon (hostname : string) : Prop :=
  ":"%char ∉ String.list_ascii_of_string hostname.

(** [hostname[:port]] *)
Definition with_port (hostname : string) (port : option string) : string :=
  match port with
  | None => hostname
  | Some p => hostname +:+ String ":" p
  end.

End ParserSpec.

(** ** Region table *)

(** [LatLon | { region: string }] *)
Inductive Location : Type :=
  | Coordinate (ll : LatLon)
  | RegionCode (region : string).

(** The object literal [map] of [regionToLatLon], in source order. *)
Definition region_table : list (string * LatLon) :=
  [ ("us-east", mkLatLon 39 (-77));
    ("us-west", mkLatLon 37.4 (-122));
    ("us-central", mkLatLon 41.6 (-93.6));
    ("us-south", mkLatLon 29.4 (-98.5));
    ("brazil", mkLatLon (-23.5) (-46.6));
    ("singapore", mkLatLon 1.29 103.85);
    ("hongkong", mkLatLon 22.32 114.17);
    ("hong-kong", mkLatLon 22.32 114.17);
    ("russia", mkLatLon 55.75 37.62);
    ("europe", mkLatLon 50.11 8.68);
    ("eu-central", mkLatLon 50.11 8.68);
    ("eu-west", mkLatLon 48.86 2.35);
    ("sydney", mkLatLon (-33.86) 151.21);
    ("japan", mkLatLon 35.68 139.69);
    ("india", mkLatLon 19.08 72.88);
    ("southafrica", mkLatLon (-26.2) 28.04);
    ("south-africa", mkLatLon (-26.2) 28.04);
    ("dubai", mkLatLon 25.2 55.27);
    ("frankfurt", mkLatLon 50.11 8.68);
    ("london", mkLatLon 51.51 (-0.13));
    ("amsterdam", mkLatLon 52.37 4.9);
    ("mumbai", mkLatLon 19.08 72.88);
    ("chicago", mkLatLon 41.88 (-87.62));
    ("atlanta", mkLatLon 33.75 (-84.39));
    ("dallas", mkLatLon 32.78 (-96.8));
    ("miami", mkLatLon 25.77 (-80.19));
    ("newyork", mkLatLon 40.71 (-74.01));
    ("new-york", mkLatLon 40.71 (-74.01));
    ("paris", mkLatLon 48.86 2.35);
    ("stockholm", mkLatLon 59.33 18.06);
    ("seoul", mkLatLon 37.57 126.98);
    ("toronto", mkLatLon 43.65 (-79.38));
    ("montreal", mkLatLon 45.5 (-73.57)) ]%R.

Fixpoint assoc {V} (key : string) (l : list (string * V)) : option V :=
  match l with
  | [] => None
  | (k, v) :: r => if String.eqb key k then Some v else assoc key r
  end.

(** ** Property reads on ordinary objects *)

(** The names of the members of [Object.prototype]: an object literal
    answers a read of any of them, whatever properties it holds
    itself. *)
Definition object_prototype_members : list string :=
  [ "constructor"; "__defineGetter__"; "__defineSetter__"; "hasOwnProperty";
    "__lookupGetter__"; "__lookupSetter__"; "isPrototypeOf";
    "propertyIsEnumerable"; "toString"; "valueOf"; "__proto__";
    "toLocaleString" ].

(** What a property read gives when it is not [undefined]: a value the
    object holds itself, or the inherited member of that name. An
    inherited member is a function ([Object.prototype] itself for
    [__proto__]): it is truthy, and it has no [lat], no [lon] and no
    [region]. *)
Inductive member (A : Type) : Type :=
  | Own (v : A)
  | Inherited (name : string).
Arguments Own {A} v.
Arguments Inherited {A} name.

(** [obj[key]], from what the object holds itself under [key]. *)
Definition property {A} (own : option A) (key : string) : option (member A) :=
  match own with
  | Some v => Some (Own v)
  | None =>
      if bool_decide (key ∈ object_prototype_members) then Some (Inherited key)
      else None
  end.

(** [regionToLatLon]: [map[region.toLowerCase()]]. Beside the
    coordinates of the table the read finds the two inherited members
    with a lower-case name, [constructor] and [__proto__]. *)
Definition regionToLatLon (region : string) : option (member LatLon) :=
  let key := Str.toLowerCase region in
  property (assoc key region_table) key.

(** ** Completions and promises *)

Inductive exn : Type :=
  | TypeError
  | SyntaxError
  | HttpError (statusCode : Z)
  | RequestTimeout
  | ConnectionError
  | CallbackError (message : string).

(** The state a promise ends in; [Unsettled] is a promise that is never
    settled. *)
Inductive Promise (A : Type) : Type :=
  | Fulfilled (a : A)
  | Rejected (e : exn)
  | Unsettled.
Arguments Fulfilled {A} a.
Arguments Rejected {A} e.
Arguments Unsettled {A}.

(** [await p] followed by the rest of an [async] body. *)
Definition await {A B} (p : Promise A) (k : A -> Promise B) : Promise B :=
  match p with
  | Fulfilled a => k a
  | Rejected e => Rejected e
  | Unsettled => Unsettled
  end.

(** [p.catch(() => undefined)] *)
Definition catch_undefined {A} (p : Promise A) : Promise (option A) :=
  match p with
  | Fulfilled a => Fulfilled (Some a)
  | Rejected _ => Fulfilled None
  | Unsettled => Unsettled
  end.

(** What a call returns to its caller synchronously: a plain value, or
    a promise (a thenable) of whatever it settles with. *)
Inductive maybe_async (A : Type) : Type :=
  | Now (v : A)
  | Later {B : Type} (p : Promise B).
Arguments Now {A} v.
Arguments Later {A B} p.

(** [resolveSyncOrAsync]: a thenable is dropped, anything else is
    returned as it is. *)
Definition resolveSyncOrAsync {T} (v : maybe_async (option T)) : option T :=
  match v with
  | Later _ => None
  | Now x => x
  end.

(** [normalizeLoc], on what its callers pass: a value with [lat] is
    returned as it is, a region code is looked up, and on an inherited
    member, which has neither, [regionToLatLon(undefined)] throws at
    [toLowerCase] and the promise is rejected. *)
Definition normalizeLoc (v : member Location) : Promise (option (member LatLon)) :=
  match v with
  | Own (Coordinate ll) => Fulfilled (Some (Own ll))
  | Own (RegionCode region) => Fulfilled (regionToLatLon region)
  | Inherited _ => Rejected TypeError
  end.

(** What a synchronous piece of code ends with. *)
Inductive completion (A : Type) : Type :=
  | Normal (a : A)
  | Throw (e : exn).
Arguments Normal {A} a.
Arguments Throw {A} e.

(** ** External geo lookup client *)

Module Json.

(** The values [JSON.parse] produces. *)
#[warnings="-register-all"] Inductive json : Type :=
  | JNull
  | JBool (b : bool)
  | JNumber (x : R)
  | JString (s : string)
  | JArray (items : list json)
  | JObject (fields : list (string * json)).

(** Truthiness: [!data] is its negation. *)
Definition truthy (v : json) : bool :=
  match v with
  | JNull => false
  | JBool b => b
  | JNumber x => if Req_dec_T x 0 then false else true
  | JString s => Str.truthy s
  | JArray _ | JObject _ => true
  end.

(** [key in data], for a key that is neither an array index nor a
    name found on the prototypes ([success] and [status] here): a
    [TypeError] when [data] is not an object. *)
Definition has_property (key : string) (data : json) : completion bool :=
  match data with
  | JObject fields => Normal (bool_decide (is_Some (assoc key fields)))
  | JArray _ => Normal false
  | JNull | JBool _ | JNumber _ | JString _ => Throw TypeError
  end.

(** [data.key] on a value other than [null]: [undefined] on anything
    that has no such property of its own. *)
Definition get (key : string) (data : json) : option json :=
  match data with
  | JObject fields => assoc key fields
  | _ => None
  end.

(** [typeof v === 'number'], with the number. *)
Definition as_number (v : option json) : option R :=
  match v with
  | Some (JNumber x) => Some x
  | _ => None
  end.

(** JavaScript truthiness of a property that may be [undefined]. *)
Definition truthy_prop (v : option json) : bool :=
  match v with
  | Some x => truthy x
  | None => false
  end.

(** [v === 'success'] *)
Definition is_success_string (v : option json) : bool :=
  match v with
  | Some (JString s) => String.eqb s "success"
  | _ => false
  end.

End Json.
Import Json.

Module GeoLookup.

(** The two providers; [host] is the looked-up host, and the empty
    host is the request for the caller's own address. *)
Inductive url : Type :=
  | IpWhoIs (host : string)
  | IpApi (host : string).

Inductive http_body : Type :=
  | EmptyBody
  | JsonBody (v : json)
  | InvalidBody.

(** What the network does with one request. *)
Inductive response : Type :=
  | ConnectionFailed
  | TimedOut
  | Responded (statusCode : Z) (body : http_body).

Definition Network : Type := url -> response.

(** [fetchJson]: rejects on an error, on a timeout, on a status of 400
    or more and on a body that does not parse; an empty body is [{}]. *)
Definition fetchJson (net : Network) (u : url) : Promise json :=
  match net u with
  | ConnectionFailed => Rejected ConnectionError
  | TimedOut => Rejected RequestTimeout
  | Responded statusCode body =>
      if (statusCode >=? 400)%Z then Rejected (HttpError statusCode)
      else match body with
           | EmptyBody => Fulfilled (JObject [])
           | JsonBody v => Fulfilled v
           | InvalidBody => Rejected SyntaxError
           end
  end.

(** ['success' in data && data.success && typeof data.latitude ===
    'number' && typeof data.longitude === 'number'], with the
    coordinate it then returns. *)
Definition ipwhois_shape (data : json) : completion (option LatLon) :=
  match has_property "success" data with
  | Throw e => Throw e
  | Normal false => Normal None
  | Normal true =>
      if truthy_prop (get "success" data) then
        match as_number (get "latitude" data), as_number (get "longitude" data) with
        | Some la, Some lo => Normal (Some (mkLatLon la lo))
        | _, _ => Normal None
        end
      else Normal None
  end.

(** ['status' in data && data.status === 'success' && typeof data.lat
    === 'number' && typeof data.lon === 'number'] *)
Definition ipapi_shape (data : json) : completion (option LatLon) :=
  match has_property "status" data with
  | Throw e => Throw e
  | Normal false => Normal None
  | Normal true =>
      if is_success_string (get "status" data) then
        match as_number (get "lat" data), as_number (get "lon" data) with
        | Some la, Some lo => Normal (Some (mkLatLon la lo))
        | _, _ => Normal None
        end
      else Normal None
  end.

(** The body of the [for (const url of urls)] loop of [geoByHost]. *)
Fixpoint geoByHost_urls (net : Network) (urls : list url) : Promise (option LatLon) :=
  match urls with
  | [] => Fulfilled None
  | u :: rest =>
      await (catch_undefined (fetchJson net u)) (fun data =>
        match data with
        | None => geoByHost_urls net rest
        | Some data =>
            if negb (truthy data) then geoByHost_urls net rest
            else match ipwhois_shape data with
                 | Throw e => Rejected e
                 | Normal (Some ll) => Fulfilled (Some ll)
                 | Normal None =>
                     match ipapi_shape data with
                     | Throw e => Rejected e
                     | Normal (Some ll) => Fulfilled (Some ll)
                     | Normal None => geoByHost_urls net rest
                     end
                 end
        end)
  end.

(** [geoByHost] *)
Definition geoByHost (net : Network) (host : string) : Promise (option LatLon) :=
  geoByHost_urls net [IpWhoIs host; IpApi host].

(** [data && data.success && typeof data.latitude === 'number' && ...]
    of [getSelfLocation]. *)
Definition self_ipwhois_shape (data : option json) : option LatLon :=
  match data with
  | Some data =>
      if truthy data && truthy_prop (get "success" data) then
        match as_number (get "latitude" data), as_number (get "longitude" data) with
        | Some la, Some lo => Some (mkLatLon la lo)
        | _, _ => None
        end
      else None
  | None => None
  end.

Definition self_ipapi_shape (data : option json) : option LatLon :=
  match data with
  | Some data =>
      if truthy data && is_success_string (get "status" data) then
        match as_number (get "lat" data), as_number (get "lon" data) with
        | Some la, Some lo => Some (mkLatLon la lo)
        | _, _ => None
        end
      else None
  | None => None
  end.

(** [getSelfLocation] *)
Definition getSelfLocation (net : Network) : Promise (option LatLon) :=
  await (catch_undefined (fetchJson net (IpWhoIs ""))) (fun data =>
    match self_ipwhois_shape data with
    | Some ll => Fulfilled (Some ll)
    | None =>
        await (catch_undefined (fetchJson net (IpApi ""))) (fun data2 =>
          Fulfilled (self_ipapi_shape data2))
    end).

End GeoLookup.

(** ** The host runtime: node registry and entry points *)

(** [NodeOptions], as far as the plugin reads it. *)
Record NodeOptions : Type := mkNode { host : string; identifier : option string }.

(** The Node Key: [n.options.identifier ?? n.options.host]. *)
Definition node_key (n : NodeOptions) : string :=
  default (host n) (identifier n).

(** [PlayerOptions]: the two properties the plugin reads, and all the
    others as a map from property name to value. *)
Record PlayerOptions : Type := mkPlayerOptions {
  guildId : string;
  nodeIdentifier : option string;
  otherOptions : gmap string json
}.

(** References to [Manager] objects. *)
Definition ref : Type := nat.

(** Function values held by the two entry points of a [Manager]. *)
Inductive func : Type :=
  | HostFunction (name : string)
  | Bound (f : func) (thisArg : ref)
  | PatchedCreate
  | PatchedUpdateVoiceState.

(** [Manager], as far as the plugin reads and writes it; [nodes] are
    the values of [manager.nodes] in insertion order. *)
Record Manager : Type := mkManager {
  nodes : list NodeOptions;
  create : func;
  updateVoiceState : func
}.

(** ** The plugin *)

(** [MagmaConnectOptions]; [nodeLocations] is an ordinary object, given
    by the properties it holds itself, the refresh interval is a whole
    number of milliseconds, and an absent [debug] is [false]. *)
Record MagmaConnectOptions : Type := mkOptions {
  nodeLocations : option (gmap string Location);
  getGuildLocation : option (string -> Promise (option Location));
  refreshIntervalMs : option Z;
  debug : bool
}.

(** [this.options.nodeLocations[id]]; without [nodeLocations] nothing
    is read. *)
Definition nodeLocations_get (o : MagmaConnectOptions) (id : string)
    : option (member Location) :=
  match nodeLocations o with
  | Some overrides => property (overrides !! id) id
  | None => None
  end.

(** The fields of a [MagmaConnect] instance. The guild cache holds
    what [regionToLatLon] gave, inherited members included. *)
Record MagmaConnect : Type := mkPlugin {
  options : MagmaConnectOptions;
  manager : option ref;
  interval : option nat;
  originalCreate : option func;
  originalUpdateVoiceState : option func;
  nodeGeo : gmap string LatLon;
  guildGeo : gmap string (member LatLon);
  selfGeo : option LatLon
}.

(** [new MagmaConnect(options)] *)
Definition new_MagmaConnect (o : MagmaConnectOptions) : MagmaConnect :=
  {| options := o; manager := None; interval := None;
     originalCreate := None; originalUpdateVoiceState := None;
     nodeGeo := ∅; guildGeo := ∅; selfGeo := None |}.

(** Work that was started and not awaited: it runs after the
    synchronous code that started it has returned. *)
Inductive task : Type :=
  | RefreshAllNodeLocations
  | ResolveNodeLocation (id : string) (node : NodeOptions)
  | GetSelfLocation.

(** What [log] prints after the prefix [[MagmaConnect]]. *)
Inductive message : Type :=
  | Text (s : string)
  | CachedGuild (guild_id : json) (region : string) (ll : LatLon)
  | NodeGeoRefreshError (e : exn).

(** The plugin instance and what it shares with its host: the
    [Manager] objects, the interval timers that [load] has set and that
    are still active, the detached work and the console. *)
Record World : Type := mkWorld {
  this : MagmaConnect;
  heap : gmap ref Manager;
  timers : gset nat;
  next_timer : nat;
  pending : list task;
  console : list message
}.

(** Synchronous methods that read the instance and start detached work
    without writing to the instance or to the host. *)
Definition Sync (A : Type) : Type := World -> A * list task.

Definition ret {A} (a : A) : Sync A := fun _ => (a, []).

Definition bind {A B} (m : Sync A) (k : A -> Sync B) : Sync B :=
  fun w => let '(a, ts1) := m w in
           let '(b, ts2) := k a w in
           (b, ts1 ++ ts2).

Definition spawn (t : task) : Sync unit := fun _ => (tt, [t]).

Definition read {A} (f : World -> A) : Sync A := fun w => (f w, []).

Declare Scope sync_scope.
Delimit Scope sync_scope with sync.
Notation "'let*' x ':=' m 'in' k" := (bind m (fun x => k))
  (at level 10, x name, m at level 100, k at level 200) : sync_scope.
Notation "m ';;' k" := (bind m (fun _ => k))
  (at level 100, k at level 200, right associativity) : sync_scope.

(** The manager the instance holds, when it is set and alive. *)
Definition the_manager (w : World) : option Manager :=
  manager (this w) ≫= fun m => heap w !! m.

#[local] Open Scope sync_scope.

(** [getSelfLocationCached]: the cached value; on a miss the lookup is
    started and the field, still unset, is returned. *)
Definition getSelfLocationCached : Sync (option LatLon) :=
  let* cached := read (fun w => selfGeo (this w)) in
  match cached with
  | Some ll => ret (Some ll)
  | None => spawn GetSelfLocation ;; read (fun w => selfGeo (this w))
  end.

(** [getTargetForGuild]. The body runs up to its end in one piece: the
    promise of the caller's resolver is taken in the state it settles
    in. *)
Definition getTargetForGuild (guildId : string)
    : Sync (Promise (option (member LatLon))) :=
  let* cached := read (fun w => guildGeo (this w) !! guildId) in
  match cached with
  | Some cached => ret (Fulfilled (Some cached))
  | None =>
      let self_location :=
        (let* ll := getSelfLocationCached in ret (Fulfilled (Own <$> ll))) in
      let* resolver := read (fun w => getGuildLocation (options (this w))) in
      match resolver with
      | Some getGuildLocation =>
          match getGuildLocation guildId with
          | Fulfilled (Some v) => ret (normalizeLoc (Own v))
          | Fulfilled None => self_location
          | Rejected e => ret (Rejected e)
          | Unsettled => ret Unsettled
          end
      | None => self_location
      end
  end.

(** One turn of the [for (const n of nodes)] loop of
    [pickBestNodeIdentifier]: [best] is replaced when the node has a
    cached coordinate and there is no best yet or [d < best.dist]. *)
Definition consider (loc : LatLon) (geo : gmap string LatLon)
    (best : option (string * R)) (n : NodeOptions) : option (string * R) :=
  let id := node_key n in
  match geo !! id with
  | None => best
  | Some ll =>
      let d := Geo.haversineKm loc ll in
      match best with
      | None => Some (id, d)
      | Some (_, dist) => if Rlt_dec d dist then Some (id, d) else best
      end
  end.

(** The [nodes.forEach] of [pickBestNodeIdentifier]: a lookup is
    started for every node whose key has no cached coordinate. *)
Fixpoint resolve_missing (ns : list NodeOptions) : Sync unit :=
  match ns with
  | [] => ret tt
  | n :: rest =>
      let id := node_key n in
      let* geo := read (fun w => nodeGeo (this w)) in
      (if bool_decide (is_Some (geo !! id)) then ret tt
       else spawn (ResolveNodeLocation id n)) ;;
      resolve_missing rest
  end.

(** [pickBestNodeIdentifier] *)
Definition pickBestNodeIdentifier
    (getTarget : Sync (maybe_async (option LatLon))) : Sync (option string) :=
  let* m := read the_manager in
  match m with
  | None => ret None
  | Some m =>
      match nodes m with
      | [] => ret None
      | first :: _ =>
          let* v := getTarget in
          let target := resolveSyncOrAsync v in
          let* loc := match target with
                      | Some t => ret (Some t)
                      | None => getSelfLocationCached
                      end in
          match loc with
          | None => ret (Some (node_key first))
          | Some loc =>
              resolve_missing (nodes m) ;;
              let* geo := read (fun w => nodeGeo (this w)) in
              match foldl (consider loc geo) None (nodes m) with
              | Some (id, _) => ret (Some id)
              | None => ret (Some (node_key first))
              end
          end
      end
  end.

(** The coordinate selection measures from: the target when it is there
    at once, the cached self-location otherwise
    ([target ?? this.getSelfLocationCached()]). *)
Definition selection_target (getTarget : Sync (maybe_async (option LatLon)))
    (w : World) : option LatLon :=
  match resolveSyncOrAsync (fst (getTarget w)) with
  | Some t => Some t
  | None => selfGeo (this w)
  end.

(** One lookup for every node of [ns] whose key has no cached
    coordinate, in the order of [ns]. *)
Definition missing_lookups (w : World) (ns : list NodeOptions) : list task :=
  (fun n => ResolveNodeLocation (node_key n) n)
    <$> filter (fun n => ¬ is_Some (nodeGeo (this w) !! node_key n)) ns.

(** A call of a function value on player options. *)
Record Call : Type := mkCall { callee : func; argument : PlayerOptions }.

(** [opts.nodeIdentifier] as a condition: absent and empty are falsy. *)
Definition pinned (o : PlayerOptions) : bool :=
  match nodeIdentifier o with
  | Some id => Str.truthy id
  | None => false
  end.

Definition set_nodeIdentifier (id : string) (o : PlayerOptions) : PlayerOptions :=
  {| guildId := guildId o; nodeIdentifier := Some id; otherOptions := otherOptions o |}.

(** The [target] closure of the patched [create]:
    [() => this.getTargetForGuild(patched.guildId)], the call of an
    [async] function. *)
Definition target_of (guildId : string) : Sync (maybe_async (option LatLon)) :=
  let* p := getTargetForGuild guildId in ret (Later p).

(** The options the patched [create] builds from [{ ...opts }]. *)
Definition patched_options (opts : PlayerOptions) : Sync PlayerOptions :=
  let patched := opts in
  if negb (pinned patched) then
    let* id := pickBestNodeIdentifier (target_of (guildId patched)) in
    match id with
    | Some id => if Str.truthy id then ret (set_nodeIdentifier id patched) else ret patched
    | None => ret patched
    end
  else ret patched.

(** The function [load] stores in [manager.create]: the call of
    [this.originalCreate] it ends with. *)
Definition patchedCreate (opts : PlayerOptions) : Sync (completion Call) :=
  let* patched := patched_options opts in
  let* original := read (fun w => originalCreate (this w)) in
  match original with
  | Some f => ret (Normal (mkCall f patched))
  | None => ret (Throw TypeError)
  end.

(** ** Writes to the instance and to the host *)

Definition set_this (f : MagmaConnect -> MagmaConnect) (w : World) : World :=
  {| this := f (this w); heap := heap w; timers := timers w;
     next_timer := next_timer w; pending := pending w; console := console w |}.

Definition set_heap (f : gmap ref Manager -> gmap ref Manager) (w : World) : World :=
  {| this := this w; heap := f (heap w); timers := timers w;
     next_timer := next_timer w; pending := pending w; console := console w |}.

Definition set_timers (f : gset nat -> gset nat) (w : World) : World :=
  {| this := this w; heap := heap w; timers := f (timers w);
     next_timer := next_timer w; pending := pending w; console := console w |}.

Definition set_pending (f : list task -> list task) (w : World) : World :=
  {| this := this w; heap := heap w; timers := timers w;
     next_timer := next_timer w; pending := f (pending w); console := console w |}.

Definition set_manager (m : ref) (p : MagmaConnect) : MagmaConnect :=
  {| options := options p; manager := Some m; interval := interval p;
     originalCreate := originalCreate p;
     originalUpdateVoiceState := originalUpdateVoiceState p;
     nodeGeo := nodeGeo p; guildGeo := guildGeo p; selfGeo := selfGeo p |}.

Definition set_interval (t : nat) (p : MagmaConnect) : MagmaConnect :=
  {| options := options p; manager := manager p; interval := Some t;
     originalCreate := originalCreate p;
     originalUpdateVoiceState := originalUpdateVoiceState p;
     nodeGeo := nodeGeo p; guildGeo := guildGeo p; selfGeo := selfGeo p |}.

Definition set_originals (c u : func) (p : MagmaConnect) : MagmaConnect :=
  {| options := options p; manager := manager p; interval := interval p;
     originalCreate := Some c; originalUpdateVoiceState := Some u;
     nodeGeo := nodeGeo p; guildGeo := guildGeo p; selfGeo := selfGeo p |}.

Definition set_nodeGeo (f : gmap string LatLon -> gmap string LatLon)
    (p : MagmaConnect) : MagmaConnect :=
  {| options := options p; manager := manager p; interval := interval p;
     originalCreate := originalCreate p;
     originalUpdateVoiceState := originalUpdateVoiceState p;
     nodeGeo := f (nodeGeo p); guildGeo := guildGeo p; selfGeo := selfGeo p |}.

Definition set_guildGeo
    (f : gmap string (member LatLon) -> gmap string (member LatLon))
    (p : MagmaConnect) : MagmaConnect :=
  {| options := options p; manager := manager p; interval := interval p;
     originalCreate := originalCreate p;
     originalUpdateVoiceState := originalUpdateVoiceState p;
     nodeGeo := nodeGeo p; guildGeo := f (guildGeo p); selfGeo := selfGeo p |}.

Definition set_selfGeo (ll : option LatLon) (p : MagmaConnect) : MagmaConnect :=
  {| options := options p; manager := manager p; interval := interval p;
     originalCreate := originalCreate p;
     originalUpdateVoiceState := originalUpdateVoiceState p;
     nodeGeo := nodeGeo p; guildGeo := guildGeo p; selfGeo := ll |}.

(** The detached work a synchronous method has started joins the
    pending work. *)
Definition started (ts : list task) (w : World) : World :=
  set_pending (fun p => p ++ ts) w.

(** [log]: prints only when [options.debug] is set. *)
Definition log (msg : message) (w : World) : World :=
  if debug (options (this w)) then
    {| this := this w; heap := heap w; timers := timers w;
       next_timer := next_timer w; pending := pending w;
       console := console w ++ [msg] |}
  else w.

(** [setInterval]: a timer that no earlier call has returned. *)
Definition setInterval (w : World) : World :=
  let t := next_timer w in
  {| this := set_interval t (this w); heap := heap w;
     timers := {[t]} ∪ timers w; next_timer := S t;
     pending := pending w; console := console w |}.

(** [load], on a reference to a live [Manager] (on any other reference
    nothing is patched). *)
Definition load (m : ref) (w : World) : World :=
  let w := set_this (set_manager m) w in
  let w := log (Text "Loading MagmaConnect plugin") w in
  let w := started [RefreshAllNodeLocations] w in
  let w := match refreshIntervalMs (options (this w)) with
           | Some ms => if (0 <? ms)%Z then setInterval w else w
           | None => w
           end in
  let w := match heap w !! m with
           | Some mgr =>
               let c := Bound (create mgr) m in
               let u := Bound (updateVoiceState mgr) m in
               set_heap
                 <[m := mkManager (nodes mgr) PatchedCreate PatchedUpdateVoiceState]>
                 (set_this (set_originals c u) w)
           | None => w
           end in
  log (Text "MagmaConnect plugin loaded") w.

(** [clearInterval(this.interval)], when the field is set. *)
Definition clear_interval (w : World) : World :=
  match interval (this w) with
  | Some t => set_timers (fun ts => ts ∖ {[t]}) w
  | None => w
  end.

(** [this.manager.create = this.originalCreate], when both are set. *)
Definition restore_create (w : World) : World :=
  match manager (this w), originalCreate (this w) with
  | Some m, Some c =>
      set_heap (alter (fun mgr => mkManager (nodes mgr) c (updateVoiceState mgr)) m) w
  | _, _ => w
  end.

(** [this.manager.updateVoiceState = this.originalUpdateVoiceState],
    when both are set. *)
Definition restore_updateVoiceState (w : World) : World :=
  match manager (this w), originalUpdateVoiceState (this w) with
  | Some m, Some u =>
      set_heap (alter (fun mgr => mkManager (nodes mgr) (create mgr) u) m) w
  | _, _ => w
  end.

(** [unload]; its argument is not used. *)
Definition unload (_ : ref) (w : World) : World :=
  let w := log (Text "Unloading MagmaConnect plugin") w in
  let w := clear_interval w in
  let w := restore_create w in
  let w := restore_updateVoiceState w in
  log (Text "MagmaConnect plugin unloaded") w.

(** ** Region hints *)

Definition is_object (v : json) : bool :=
  match v with
  | JArray _ | JObject _ => true
  | _ => false
  end.

(** [typeof v === 'string'], with the string. *)
Definition as_string (v : option json) : option string :=
  match v with
  | Some (JString s) => Some s
  | _ => None
  end.

(** [extractVoiceServerUpdate]: the three known shapes, in order; in
    the first one [guild_id] is taken as it comes. *)
Definition extractVoiceServerUpdate (data : json) : option (option json * string) :=
  if truthy data && is_object data then
    let shape1 :=
      match as_string (get "t" data), get "d" data with
      | Some t, Some d =>
          if String.eqb t "VOICE_SERVER_UPDATE" && truthy d then
            match as_string (get "endpoint" d) with
            | Some e => Some (get "guild_id" d, e)
            | None => None
            end
          else None
      | _, _ => None
      end in
    let shape2 :=
      match as_string (get "endpoint" data), as_string (get "guild_id" data) with
      | Some e, Some g => Some (Some (JString g), e)
      | _, _ => None
      end in
    let shape3 :=
      match get "event" data with
      | Some ev =>
          if truthy ev then
            match as_string (get "endpoint" ev), as_string (get "guild_id" ev) with
            | Some e, Some g => Some (Some (JString g), e)
            | _, _ => None
            end
          else None
      | None => None
      end in
    match shape1, shape2 with
    | Some r, _ => Some r
    | None, Some r => Some r
    | None, None => shape3
    end
  else None.

(** [this.guildGeo.set(key, ll)], seen through the keys that are
    strings (the only ones [getTargetForGuild] looks up). *)
Definition guildGeo_set (key : json) (latlon : member LatLon) (p : MagmaConnect)
    : MagmaConnect :=
  match key with
  | JString g => set_guildGeo <[g := latlon]> p
  | _ => p
  end.

(** The function [load] stores in [manager.updateVoiceState], up to
    the call of [this.originalUpdateVoiceState] it ends with. Whatever
    [regionToLatLon] gave is cached; the line for the log is then built
    from [latlon.lat], which throws on an inherited member, and what is
    thrown is ignored. *)
Definition patchedUpdateVoiceState (data : json) (w : World) : World :=
  match extractVoiceServerUpdate data with
  | Some (Some guild_id, endpoint) =>
      if truthy guild_id && Str.truthy endpoint then
        match parseDiscordRegionFromEndpoint endpoint with
        | Some region =>
            match regionToLatLon region with
            | Some latlon =>
                let w := set_this (guildGeo_set guild_id latlon) w in
                match latlon with
                | Own ll => log (CachedGuild guild_id region ll) w
                | Inherited _ => w
                end
            | None => w
            end
        | None => w
        end
      else w
  | _ => w
  end.

(** ** Detached work *)

(** [resolveNodeLocation]: whatever [nodeLocations[id]] gives is
    truthy and goes to [normalizeLoc]. *)
Definition resolveNodeLocation (net : GeoLookup.Network) (o : MagmaConnectOptions)
    (node : NodeOptions) : Promise (option (member LatLon)) :=
  let id := node_key node in
  match nodeLocations_get o id with
  | Some override => normalizeLoc override
  | None =>
      await (catch_undefined (GeoLookup.geoByHost net (host node))) (fun byHost =>
        match byHost with
        | Some (Some ll) => Fulfilled (Some (Own ll))
        | _ => Fulfilled None
        end)
  end.

(** [if (ll) this.nodeGeo.set(id, ll)]. An inherited member is truthy
    and would be stored like a coordinate: the node cache then holds a
    value that has no place in the model, and there is no result. *)
Definition nodeGeo_set (id : string) (ll : option (member LatLon)) (w : World)
    : option World :=
  match ll with
  | Some (Own ll) => Some (set_this (set_nodeGeo <[id := ll]>) w)
  | Some (Inherited _) => None
  | None => Some w
  end.

(** [.then((ll) => ll && this.nodeGeo.set(id, ll))]: nothing is
    written when the promise is rejected (a rejection that nothing
    handles is left to the runtime). *)
Definition nodeGeo_set_resolved (id : string) (p : Promise (option (member LatLon)))
    (w : World) : option World :=
  match p with
  | Fulfilled ll => nodeGeo_set id ll w
  | Rejected _ | Unsettled => Some w
  end.

(** One pass of [refreshAllNodeLocations] over the registry: a node for
    which [nodeLocations[id]] is truthy is written at once, any other
    node gets a lookup of its own. When the awaited [normalizeLoc]
    rejects, the pass ends there, the nodes that follow are not looked
    at, and the [catch] of the caller logs the error. *)
Fixpoint refresh_nodes (ns : list NodeOptions) (w : World) : option World :=
  match ns with
  | [] => Some w
  | n :: rest =>
      let id := node_key n in
      match nodeLocations_get (options (this w)) id with
      | Some override =>
          match normalizeLoc override with
          | Fulfilled ll =>
              match nodeGeo_set id ll w with
              | Some w => refresh_nodes rest w
              | None => None
              end
          | Rejected e => Some (log (NodeGeoRefreshError e) w)
          | Unsettled => Some w
          end
      | None =>
          refresh_nodes rest (started [ResolveNodeLocation id n] w)
      end
  end.

(** The effect of a piece of detached work when it completes, on the
    network [net] it meets; there is no result when the node cache
    would hold a value that is not a coordinate. *)
Definition run_task (net : GeoLookup.Network) (t : task) (w : World) : option World :=
  match t with
  | RefreshAllNodeLocations =>
      match the_manager w with
      | Some m => refresh_nodes (nodes m) w
      | None => Some w
      end
  | ResolveNodeLocation id node =>
      nodeGeo_set_resolved id (resolveNodeLocation net (options (this w)) node) w
  | GetSelfLocation =>
      match GeoLookup.getSelfLocation net with
      | Fulfilled ll => Some (set_this (set_selfGeo ll) w)
      | _ => Some w
      end
  end.

(** ** Life of a plugin instance *)

(** A world in which [new MagmaConnect(options)] has just run. *)
Definition initial (o : MagmaConnectOptions) (h : gmap ref Manager) : World :=
  {| this := new_MagmaConnect o; heap := h; timers := ∅; next_timer := 0;
     pending := []; console := [] |}.

(** What can happen between a [load] and an [unload]: the host calls
    one of the two patched entry points or registers nodes, a refresh
    timer fires, or a piece of detached work completes. *)
Inductive activity (w : World) : World -> Prop :=
  | activity_create opts :
      activity w (started (snd (patchedCreate opts w)) w)
  | activity_updateVoiceState data :
      activity w (patchedUpdateVoiceState data w)
  | activity_register m ns :
      activity w
        (set_heap (alter (fun mgr => mkManager ns (create mgr) (updateVoiceState mgr)) m) w)
  | activity_tick t :
      t ∈ timers w ->
      activity w (started [RefreshAllNodeLocations] w)
  | activity_task net before t after w' :
      pending w = before ++ t :: after ->
      run_task net t (set_pending (fun _ => before ++ after) w) = Some w' ->
      activity w w'.

(** What can happen next: the host calls [load] or [unload], in any
    order, or there is some activity. *)
Inductive step (w : World) : World -> Prop :=
  | step_load m :
      is_Some (heap w !! m) ->
      step w (load m w)
  | step_unload m :
      step w (unload m w)
  | step_activity w' :
      activity w w' ->
      step w w'.

(** The states an instance can be in once it has been loaded. *)
Definition reachable_after_load (w : World) : Prop :=
  exists o h m, is_Some (h !! m) /\ rtc step (load m (initial o h)) w.

(** What [load] establishes and every later state keeps: the instance
    holds a live manager and the two functions it captured. *)
Definition loaded (w : World) : Prop :=
  exists m mgr c u,
    manager (this w) = Some m /\ heap w !! m = Some mgr /\
    originalCreate (this w) = Some c /\ originalUpdateVoiceState (this w) = Some u.

(** [w'] holds the manager and the captured functions of [w], and
    every manager of [w] is still alive. *)
Definition keeps_wiring (w w' : World) : Prop :=
  manager (this w') = manager (this w) /\
  originalCreate (this w') = originalCreate (this w) /\
  originalUpdateVoiceState (this w') = originalUpdateVoiceState (this w) /\
  forall m, is_Some (heap w !! m) -> is_Some (heap w' !! m).

(** [w'] differs from [w] in the caches, the detached work and the
    console at most. *)
Definition same_wiring (w w' : World) : Prop :=
  heap w' = heap w /\ timers w' = timers w /\ next_timer w' = next_timer w /\
  options (this w') = options (this w) /\
  manager (this w') = manager (this w) /\
  interval (this w') = interval (this w) /\
  originalCreate (this w') = originalCreate (this w) /\
  originalUpdateVoiceState (this w') = originalUpdateVoiceState (this w).

(** A function value that runs the code of an interceptor of the
    plugin. *)
Fixpoint is_interceptor (f : func) : bool :=
  match f with
  | PatchedCreate | PatchedUpdateVoiceState => true
  | Bound f _ => is_interceptor f
  | HostFunction _ => false
  end.

(** No manager has an interceptor as an entry point. *)
Definition host_owned (h : gmap ref Manager) : Prop :=
  forall m mgr, h !! m = Some mgr ->
    is_interceptor (create mgr) = false /\
    is_interceptor (updateVoiceState mgr) = false.

(** The states of an instance whose host calls [load] only on a new or
    an unloaded instance; the flag tells whether the instance is
    loaded. *)
Inductive orderly : bool -> World -> Prop :=
  | orderly_first o h m :
      is_Some (h !! m) -> host_owned h ->
      orderly true (load m (initial o h))
  | orderly_unload b w m :
      orderly b w ->
      orderly false (unload m w)
  | orderly_load w m :
      orderly false w -> is_Some (heap w !! m) ->
      orderly true (load m w)
  | orderly_activity b w w' :
      orderly b w -> activity w w' ->
      orderly b w'.

(** What an orderly life keeps: the instance holds a live manager and
    two captured functions that are not interceptors; a timer is active
    only while the instance is loaded, and it is the one the instance
    holds; an interceptor is an entry point only while the instance is
    loaded, and only of the manager the instance holds. *)
Definition well_wired (b : bool) (w : World) : Prop :=
  (exists m mgr c u,
     manager (this w) = Some m /\ heap w !! m = Some mgr /\
     originalCreate (this w) = Some c /\ originalUpdateVoiceState (this w) = Some u /\
     is_interceptor c = false /\ is_interceptor u = false) /\
  (forall t, t ∈ timers w -> b = true /\ interval (this w) = Some t) /\
  (forall m mgr, heap w !! m = Some mgr ->
     (is_interceptor (create mgr) = false /\
      is_interceptor (updateVoiceState mgr) = false)
     \/ (b = true /\ manager (this w) = Some m)).

(** Every value of the guild cache is one [regionToLatLon] gives. *)
Definition guild_cache_from_table (w : World) : Prop :=
  forall g v, guildGeo (this w) !! g = Some v ->
    exists region, regionToLatLon region = Some v.


(** The coordinate a refresh pass finds for a Node Key in the options:
    the one [nodeLocations] holds under the key, or the one the region
    table holds for the region code that is there. *)
Definition override_coordinate (o : MagmaConnectOptions) (key : string) : option LatLon :=
  match nodeLocations_get o key with
  | Some (Own (Coordinate ll)) => Some ll
  | Some (Own (RegionCode region)) =>
      match regionToLatLon region with
      | Some (Own ll) => Some ll
      | _ => None
      end
  | _ => None
  end.

(** A pass over [ns] meets no read of [nodeLocations] that gives an
    inherited member, and no region code for which [regionToLatLon]
    gives one. *)
Definition plain_overrides (o : MagmaConnectOptions) (ns : list NodeOptions) : Prop :=
  forall n, n ∈ ns ->
    match nodeLocations_get o (node_key n) with
    | Some (Inherited _) => False
    | Some (Own (RegionCode region)) =>
        forall name, regionToLatLon region ≠ Some (Inherited name)
    | _ => True
    end.

(** ** Sample configurations *)

Module Examples.

Definition node_a : NodeOptions := mkNode "a.example.net" (Some "a").
Definition node_b : NodeOptions := mkNode "b.example.net" (Some "b").
(** A node without identifier: its key is its host. *)
Definition node_c : NodeOptions := mkNode "c.example.net" None.

Definition no_options : MagmaConnectOptions := mkOptions None None None false.

(** Options whose resolver answers every guild with one region code. *)
Definition region_resolver (region : string) : MagmaConnectOptions :=
  mkOptions None (Some (fun _ => Fulfilled (Some (RegionCode region)))) None false.

Definition host_create : func := Bound (HostFunction "create") 0.
Definition host_updateVoiceState : func := Bound (HostFunction "updateVoiceState") 0.

(** A loaded instance on the manager at reference 0, with the given
    registry and caches. *)
Definition world (o : MagmaConnectOptions) (ns : list NodeOptions)
    (node_geo : gmap string LatLon) (guild_geo : gmap string (member LatLon))
    (self_geo : option LatLon) : World :=
  {| this := {| options := o; manager := Some 0; interval := None;
                originalCreate := Some host_create;
                originalUpdateVoiceState := Some host_updateVoiceState;
                nodeGeo := node_geo; guildGeo := guild_geo; selfGeo := self_geo |};
     heap := {[ 0 := mkManager ns PatchedCreate PatchedUpdateVoiceState ]};
     timers := ∅; next_timer := 0; pending := []; console := [] |}.

(** A = (0,0), B = (0,10), C = (0,90). *)
Definition three_coordinates : gmap string LatLon :=
  {[ "a" := mkLatLon 0 0; "b" := mkLatLon 0 10; "c.example.net" := mkLatLon 0 90 ]}.

Definition three_nodes_world : World :=
  world no_options [node_c; node_a; node_b] three_coordinates ∅ None.

(** Nothing cached yet. *)
Definition cold_world : World :=
  world no_options [node_b; node_a] ∅ ∅ None.

(** Node A is cached, node B is not, and the self-location is known. *)
Definition half_cached_world : World :=
  world no_options [node_a; node_b] {[ "a" := mkLatLon 0 0 ]} ∅
    (Some (mkLatLon 0 5)).

(** Node A has a region override and a stale cached coordinate. *)
Definition overridden_world : World :=
  world (mkOptions (Some {[ "a" := RegionCode "Frankfurt" ]}) None None false)
    [node_a; node_b] {[ "a" := mkLatLon 0 0 ]} ∅ None.

(** The guild ["g"] has the cached coordinate of node C, the host of
    the bot is where node A is. *)
Definition guild_cached_world : World :=
  world no_options [node_a; node_c]
    {[ "a" := mkLatLon 0 0; "c.example.net" := mkLatLon 0 90 ]}
    {[ "g" := Own (mkLatLon 0 90) ]} (Some (mkLatLon 0 0)).

(** The resolver names a region the table does not have, and the
    self-location is known. *)
Definition unknown_region_world : World :=
  world (region_resolver "mars") [node_a] ∅ ∅ (Some (mkLatLon 10 20)).

(** A host with one manager whose entry points are its own, and an
    instance that has just been created and loaded on it. *)
Definition host_heap : gmap ref Manager :=
  {[ 0 := mkManager [node_a; node_b]
            (HostFunction "create") (HostFunction "updateVoiceState") ]}.

Definition just_loaded (o : MagmaConnectOptions) : World :=
  load 0 (initial o host_heap).

Definition refreshing : MagmaConnectOptions :=
  mkOptions None None (Some 60000%Z) true.

(** A [VOICE_SERVER_UPDATE] dispatch as the gateway sends it. *)
Definition voice_server_update (g endpoint : string) : json :=
  JObject [("t", JString "VOICE_SERVER_UPDATE");
           ("d", JObject [("token", JString "t0ken"); ("guild_id", JString g);
                          ("endpoint", JString endpoint)])].

Definition player (g : string) (pin : option string) : PlayerOptions :=
  mkPlayerOptions g pin {[ "textChannelId" := JString "456";
                           "voiceChannelId" := JString "789" ]}.

(** A primary provider that answers 200 with a JSON string, and a
    secondary provider with a well-formed success payload. *)
Definition string_payload_network : GeoLookup.Network :=
  fun u =>
    match u with
    | GeoLookup.IpWhoIs _ =>
        GeoLookup.Responded 200 (GeoLookup.JsonBody (JString "limit reached"))
    | GeoLookup.IpApi _ =>
        GeoLookup.Responded 200
          (GeoLookup.JsonBody
             (JObject [("status", JString "success");
                       ("lat", JNumber 50.11); ("lon", JNumber 8.68)]))
    end.

(** A network on which the primary provider knows where the caller
    is. *)
Definition self_network : GeoLookup.Network :=
  fun _ =>
    GeoLookup.Responded 200
      (GeoLookup.JsonBody
         (JObject [("success", JBool true);
                   ("latitude", JNumber 52.37); ("longitude", JNumber 4.9)])).

End Examples.

(** * Properties *)

(** ** Great-circle distance *)

Section Haversine.
Import Geo.
#[local] Open Scope R_scope.

Lemma asin_eq_0 s : 0 <= s <= 1 -> asin s = 0 -> s = 0.
Proof.
  intros Hs H0. rewrite <- (sin_asin s) by lra. rewrite H0. apply sin_0.
Qed.

Lemma Rmin_1_sqrt_range h : 0 <= Rmin 1 (sqrt h) <= 1.
Proof.
  pose proof (sqrt_pos h). unfold Rmin. destruct (Rle_dec 1 (sqrt h)); lra.
Qed.

(** The distance vanishes exactly when [h] does. *)
Lemma haversineKm_0_hav a b :
  0 <= hav a b -> haversineKm a b = 0 <-> hav a b = 0.
Proof.
  intros Hh. unfold haversineKm, R_km. split.
  - intros H.
    assert (Ha : asin (Rmin 1 (sqrt (hav a b))) = 0) by lra.
    apply asin_eq_0 in Ha; [| apply Rmin_1_sqrt_range].
    apply sqrt_eq_0; [assumption |].
    revert Ha. unfold Rmin. destruct (Rle_dec 1 (sqrt (hav a b))); lra.
  - intros ->. rewrite sqrt_0.
    replace (Rmin 1 0) with 0 by (unfold Rmin; destruct (Rle_dec 1 0); lra).
    rewrite asin_0. lra.
Qed.

Lemma sin_0_quarter x : - (PI / 2) <= x <= PI / 2 -> sin x = 0 -> x = 0.
Proof.
  intros Hx H. rewrite <- (asin_sin x) by assumption. rewrite H. apply asin_0.
Qed.

Lemma sin_0_half x : - PI <= x <= PI -> sin x = 0 -> x = 0 \/ x = PI \/ x = - PI.
Proof.
  intros Hx H. pose proof PI_RGT_0 as Hpi.
  destruct (Rtotal_order x 0) as [Hneg | [-> | Hpos]]; [| by left |].
  - destruct (Req_dec x (- PI)) as [-> | Hne]; [by right; right |].
    assert (Hlt : sin x < 0) by (apply sin_lt_0_var; lra). lra.
  - destruct (Req_dec x PI) as [-> | Hne]; [by right; left |].
    assert (Hgt : 0 < sin x) by (apply sin_gt_0; lra). lra.
Qed.

Lemma cos_0_quarter x :
  - (PI / 2) <= x <= PI / 2 -> cos x = 0 -> x = PI / 2 \/ x = - (PI / 2).
Proof.
  intros Hx H.
  destruct (Req_dec x (PI / 2)) as [-> | Hne1]; [by left |].
  destruct (Req_dec x (- (PI / 2))) as [-> | Hne2]; [by right |].
  assert (Hgt : 0 < cos x) by (apply cos_gt_0; lra). lra.
Qed.

Lemma toRad_bounds x k :
  - k <= x <= k -> - (k * PI / 180) <= toRad x <= k * PI / 180.
Proof.
  intros [Hlo Hhi]. pose proof PI_RGT_0 as Hpi. unfold toRad.
  assert (x * PI <= k * PI) by (apply Rmult_le_compat_r; lra).
  assert (- k * PI <= x * PI) by (apply Rmult_le_compat_r; lra).
  lra.
Qed.

Lemma cos_toRad_nonneg x : -90 <= x <= 90 -> 0 <= cos (toRad x).
Proof.
  intros Hx. pose proof (toRad_bounds x 90 Hx). apply cos_ge_0; lra.
Qed.

Lemma hav_nonneg a b : valid_coordinate a -> valid_coordinate b -> 0 <= hav a b.
Proof.
  intros [Ha _] [Hb _]. unfold hav. cbv zeta.
  pose proof (cos_toRad_nonneg _ Ha). pose proof (cos_toRad_nonneg _ Hb).
  set (s1 := sin _). set (s2 := sin _).
  pose proof (Rle_0_sqr s1) as H1. pose proof (Rle_0_sqr s2) as H2.
  unfold Rsqr in *.
  assert (0 <= cos (toRad (lat a)) * cos (toRad (lat b))) by nra.
  nra.
Qed.

Lemma toRad_half_eq x y : toRad x / 2 = y -> x = 360 * y / PI.
Proof.
  pose proof PI_RGT_0. unfold toRad. intros <-. field. lra.
Qed.

(** [h] vanishes exactly when the two coordinates name one point of
    the sphere. *)
Lemma hav_0_iff a b :
  valid_coordinate a -> valid_coordinate b ->
  hav a b = 0 <->
  lat a = lat b /\
  (lon a = lon b \/ Rabs (lat a) = 90 \/ Rabs (lon b - lon a) = 360).
Proof.
  intros [Hla Hlo] [Hlb Hlob]. pose proof PI_RGT_0 as Hpi.
  pose proof (cos_toRad_nonneg _ Hla) as Hc1.
  pose proof (cos_toRad_nonneg _ Hlb) as Hc2.
  unfold hav. cbv zeta. split.
  - intros H.
    set (s1 := sin (toRad (lat b - lat a) / 2)) in *.
    set (s2 := sin (toRad (lon b - lon a) / 2)) in *.
    pose proof (Rle_0_sqr s1) as H1. pose proof (Rle_0_sqr s2) as H2.
    unfold Rsqr in H1, H2.
    assert (Hcc : 0 <= cos (toRad (lat a)) * cos (toRad (lat b))) by nra.
    assert (Hs1 : s1 = 0) by nra.
    assert (Hrest : cos (toRad (lat a)) * cos (toRad (lat b)) * s2 * s2 = 0) by nra.
    assert (Hlat : lat a = lat b).
    { subst s1. apply sin_0_quarter in Hs1;
        [| pose proof (toRad_bounds (lat b - lat a) 180 ltac:(lra)); lra].
      apply toRad_half_eq in Hs1. replace (360 * 0 / PI) with 0 in Hs1 by (field; lra).
      lra. }
    split; [assumption |].
    rewrite <- Hlat in Hrest.
    assert (Hcases : cos (toRad (lat a)) = 0 \/ s2 = 0).
    { apply Rmult_integral in Hrest as [Hr | ?]; [| by right].
      apply Rmult_integral in Hr as [Hr | ?]; [| by right].
      apply Rmult_integral in Hr as [? | ?]; by left. }
    destruct Hcases as [Hc | Hs2].
    + right; left.
      apply cos_0_quarter in Hc;
        [| pose proof (toRad_bounds (lat a) 90 Hla); lra].
      unfold toRad in Hc.
      destruct Hc as [Hc | Hc].
      * assert (lat a = 90) as -> by nra. apply Rabs_pos_eq. lra.
      * assert (lat a = -90) as -> by nra. rewrite Rabs_left; lra.
    + subst s2. apply sin_0_half in Hs2;
        [| pose proof (toRad_bounds (lon b - lon a) 360 ltac:(lra)); lra].
      unfold toRad in Hs2.
      destruct Hs2 as [Hs2 | [Hs2 | Hs2]].
      * left. nra.
      * right; right. assert (lon b - lon a = 360) as -> by nra.
        apply Rabs_pos_eq. lra.
      * right; right. assert (lon b - lon a = -360) as -> by nra.
        rewrite Rabs_left; lra.
  - intros [Hlat Hcases]. rewrite Hlat.
    replace (toRad (lat b - lat b) / 2) with 0 by (unfold toRad; field).
    rewrite sin_0.
    destruct Hcases as [Hlon | [Hpole | Hanti]].
    + rewrite Hlon.
      replace (toRad (lon b - lon b) / 2) with 0 by (unfold toRad; field).
      rewrite sin_0. lra.
    + rewrite Hlat in Hpole.
      assert (Hc : cos (toRad (lat b)) = 0).
      { revert Hpole. unfold Rabs. destruct (Rcase_abs (lat b)); intros Hp.
        - replace (toRad (lat b)) with (- (PI / 2)) by (unfold toRad; nra).
          rewrite cos_neg. apply cos_PI2.
        - replace (toRad (lat b)) with (PI / 2) by (unfold toRad; nra).
          apply cos_PI2. }
      rewrite Hc. lra.
    + assert (Hs : sin (toRad (lon b - lon a) / 2) = 0).
      { revert Hanti. unfold Rabs. destruct (Rcase_abs (lon b - lon a)); intros Hp.
        - replace (toRad (lon b - lon a) / 2) with (- PI) by (unfold toRad; nra).
          rewrite sin_neg, sin_PI. lra.
        - replace (toRad (lon b - lon a) / 2) with PI by (unfold toRad; nra).
          apply sin_PI. }
      rewrite Hs. lra.
Qed.

Lemma sin_Rabs_quarter u :
  Rabs u <= PI / 2 -> Rabs (sin u) = sin (Rabs u).
Proof.
  pose proof PI_RGT_0 as Hpi. unfold Rabs at 1 3.
  destruct (Rcase_abs u) as [Hneg | Hpos]; intros Hu.
  - rewrite sin_neg. apply Rabs_left1.
    assert (0 <= sin (- u)) by (apply sin_ge_0; lra).
    rewrite sin_neg in *. lra.
  - apply Rabs_pos_eq. apply sin_ge_0; lra.
Qed.

(** Along the equator the distance is the arc of the difference of
    the longitudes. *)
Lemma haversineKm_equator x y :
  Rabs (y - x) <= 180 ->
  haversineKm (mkLatLon 0 x) (mkLatLon 0 y) = R_km * toRad (Rabs (y - x)).
Proof.
  intros Hd. pose proof PI_RGT_0 as Hpi.
  unfold haversineKm, hav. cbn [lat lon].
  replace (toRad (0 - 0) / 2) with 0 by (unfold toRad; field).
  replace (toRad 0) with 0 by (unfold toRad; field).
  rewrite sin_0, cos_0.
  set (u := toRad (y - x) / 2).
  replace (0 * 0 + 1 * 1 * sin u * sin u) with (Rsqr (sin u)) by (unfold Rsqr; ring).
  rewrite sqrt_Rsqr_abs.
  assert (Hu : Rabs u = toRad (Rabs (y - x)) / 2).
  { subst u. unfold toRad, Rabs.
    destruct (Rcase_abs (y - x)), (Rcase_abs ((y - x) * PI / 180 / 2)); nra. }
  assert (Hq : 0 <= Rabs u <= PI / 2).
  { split; [apply Rabs_pos |]. rewrite Hu.
    pose proof (toRad_bounds (Rabs (y - x)) 180) as Hb.
    pose proof (Rabs_pos (y - x)). lra. }
  rewrite sin_Rabs_quarter by lra.
  rewrite Rmin_right by (pose proof (SIN_bound (Rabs u)); lra).
  rewrite asin_sin by lra. rewrite Hu. lra.
Qed.
End Haversine.

Section HaversineZero.
Import Geo.
#[local] Open Scope R_scope.

(** C4, as amended. For valid coordinates the distance is zero exactly
    when the two coordinates name one point of the sphere: the
    latitudes are equal, and the longitudes are equal, or the
    latitude is a pole, or the longitudes are the two ends of the
    range. (Exact on real numbers; the tolerance of the claim is for
    rounding, which the model leaves out.) *)
Theorem haversineKm_zero_iff a b :
  valid_coordinate a -> valid_coordinate b ->
  haversineKm a b = 0 <->
  lat a = lat b /\
  (lon a = lon b \/ Rabs (lat a) = 90 \/ Rabs (lon b - lon a) = 360).
Proof.
  intros Ha Hb. rewrite haversineKm_0_hav by by apply hav_nonneg.
  by apply hav_0_iff.
Qed.

Lemma haversineKm_zero_iff_witness :
  valid_coordinate (mkLatLon 90 0) /\ valid_coordinate (mkLatLon 90 50) /\
  haversineKm (mkLatLon 90 0) (mkLatLon 90 50) = 0.
Proof.
  assert (Ha : valid_coordinate (mkLatLon 90 0)) by (unfold valid_coordinate; cbn; lra).
  assert (Hb : valid_coordinate (mkLatLon 90 50)) by (unfold valid_coordinate; cbn; lra).
  split; [exact Ha |]. split; [exact Hb |].
  apply (haversineKm_zero_iff _ _ Ha Hb). cbn. split; [reflexivity |].
  right; left. apply Rabs_pos_eq. lra.
Defined.

(** C4 as stated fails: two different valid coordinates at the north
    pole are at distance zero. *)
Lemma haversineKm_zero_distinct_coordinates :
  ~ (forall a b, valid_coordinate a -> valid_coordinate b ->
       haversineKm a b = 0 <-> a = b).
Proof.
  intros H.
  assert (Ha : valid_coordinate (mkLatLon 90 0)) by (unfold valid_coordinate; cbn; lra).
  assert (Hb : valid_coordinate (mkLatLon 90 50)) by (unfold valid_coordinate; cbn; lra).
  assert (H0 : haversineKm (mkLatLon 90 0) (mkLatLon 90 50) = 0).
  { rewrite haversineKm_0_hav by by apply hav_nonneg.
    apply hav_0_iff; [done | done |]. cbn. split; [reflexivity |].
    right; left. apply Rabs_pos_eq. lra. }
  apply (H _ _ Ha Hb) in H0. injection H0. lra.
Qed.

(** Equal coordinates are at distance zero, valid or not. *)
Lemma haversineKm_refl a : haversineKm a a = 0.
Proof.
  unfold haversineKm, hav.
  replace (toRad (lat a - lat a) / 2) with 0 by (unfold toRad; field).
  replace (toRad (lon a - lon a) / 2) with 0 by (unfold toRad; field).
  rewrite sin_0.
  replace (0 * 0 + cos (toRad (lat a)) * cos (toRad (lat a)) * 0 * 0) with 0 by ring.
  rewrite sqrt_0, Rmin_right by lra. rewrite asin_0. lra.
Qed.
End HaversineZero.

(** ** Nearest-node selection *)

Section Selector.
Implicit Types (w : World) (ns : list NodeOptions) (geo : gmap string LatLon).

Lemma fst_bind {A B} (m : Sync A) (k : A -> Sync B) w :
  fst (bind m k w) = fst (k (fst (m w)) w).
Proof. unfold bind. destruct (m w) as [a ts]. cbn. by destruct (k a w). Qed.

Lemma snd_bind {A B} (m : Sync A) (k : A -> Sync B) w :
  snd (bind m k w) = snd (m w) ++ snd (k (fst (m w)) w).
Proof. unfold bind. destruct (m w) as [a ts]. cbn. by destruct (k a w). Qed.

Lemma getSelfLocationCached_value w :
  fst (getSelfLocationCached w) = selfGeo (this w).
Proof.
  unfold getSelfLocationCached, bind, read, spawn, ret. cbn.
  destruct (selfGeo (this w)) eqn:E; cbn; by rewrite ?E.
Qed.

(** What [pickBestNodeIdentifier] returns, without the work it
    starts. *)
Lemma pickBestNodeIdentifier_value getTarget w :
  fst (pickBestNodeIdentifier getTarget w) =
  match the_manager w with
  | None => None
  | Some m =>
      match nodes m with
      | [] => None
      | first :: _ =>
          match selection_target getTarget w with
          | None => Some (node_key first)
          | Some loc =>
              match foldl (consider loc (nodeGeo (this w))) None (nodes m) with
              | Some (id, _) => Some id
              | None => Some (node_key first)
              end
          end
      end
  end.
Proof.
  unfold pickBestNodeIdentifier, selection_target.
  rewrite fst_bind. cbn [read fst].
  destruct (the_manager w) as [m |]; [| done].
  destruct (nodes m) as [| first rest]; [done |].
  rewrite !fst_bind.
  destruct (resolveSyncOrAsync (getTarget w).1) as [t |].
  - cbn [ret fst]. rewrite !fst_bind. cbn [read fst].
    by destruct (foldl _ _ _) as [[id d] |].
  - rewrite getSelfLocationCached_value.
    destruct (selfGeo (this w)) as [loc |]; [| done].
    rewrite !fst_bind. cbn [read fst].
    by destruct (foldl _ _ _) as [[id d] |].
Qed.

(** The loop keeps a key of the pool, or the [best] it started from. *)
Lemma foldl_consider_key loc geo ns best id d :
  foldl (consider loc geo) best ns = Some (id, d) ->
  best = Some (id, d) \/ exists n, n ∈ ns /\ node_key n = id.
Proof.
  revert best. induction ns as [| n ns IH]; intros best; cbn; [by left |].
  intros H. apply IH in H as [H | (n' & Hin & Hk)].
  - unfold consider in H.
    destruct (geo !! node_key n) as [ll |]; [| by left].
    destruct best as [[bid bd] |].
    + destruct (Rlt_dec _ _); [| by left].
      right. exists n. split; [left | congruence].
    + right. exists n. split; [left | congruence].
  - right. exists n'. split; [by right | done].
Qed.

(** Without any cached coordinate the loop finds nothing. *)
Lemma foldl_consider_none loc geo ns :
  (forall n, n ∈ ns -> geo !! node_key n = None) ->
  foldl (consider loc geo) None ns = None.
Proof.
  induction ns as [| n ns IH]; intros H; cbn; [done |].
  unfold consider at 2. rewrite (H n) by left.
  apply IH. intros n' Hn'. apply H. by right.
Qed.

(** A node strictly nearer than every node of another key wins,
    wherever it stands in the pool. *)
Lemma foldl_consider_nearest loc geo k llk ns best :
  geo !! k = Some llk ->
  (forall n ll, n ∈ ns -> geo !! node_key n = Some ll -> node_key n ≠ k ->
     (Geo.haversineKm loc llk < Geo.haversineKm loc ll)%R) ->
  match best with
  | None => True
  | Some (id, d) =>
      (id = k /\ d = Geo.haversineKm loc llk) \/ (Geo.haversineKm loc llk < d)%R
  end ->
  best = Some (k, Geo.haversineKm loc llk) \/ (exists n, n ∈ ns /\ node_key n = k) ->
  foldl (consider loc geo) best ns = Some (k, Geo.haversineKm loc llk).
Proof.
  intros Hk. revert best.
  induction ns as [| n ns IH]; intros best Hfar Hbest Hin; cbn.
  - destruct Hin as [-> | (n & Hn & _)]; [done | by apply elem_of_nil in Hn].
  - assert (Hfar' : forall n' ll, n' ∈ ns -> geo !! node_key n' = Some ll ->
              node_key n' ≠ k ->
              (Geo.haversineKm loc llk < Geo.haversineKm loc ll)%R).
    { intros n' ll Hn'. apply Hfar. by right. }
    apply IH; [done | |]; unfold consider.
    + destruct (geo !! node_key n) as [ll |] eqn:Hll; [| done].
      destruct (decide (node_key n = k)) as [Heq | Hne].
      * rewrite Heq in Hll. assert (ll = llk) as -> by congruence.
        destruct best as [[bid bd] |]; [| by left].
        destruct (Rlt_dec _ _); [left; by rewrite Heq | done].
      * pose proof (Hfar n ll ltac:(left) Hll Hne) as Hlt.
        destruct best as [[bid bd] |]; [| by right].
        destruct (Rlt_dec _ _); [by right | done].
    + destruct (geo !! node_key n) as [ll |] eqn:Hll.
      * destruct (decide (node_key n = k)) as [Heq | Hne].
        -- rewrite Heq in Hll. assert (ll = llk) as -> by congruence.
           left. destruct best as [[bid bd] |]; [| by rewrite Heq].
           destruct (Rlt_dec _ _) as [Hlt | Hge]; [by rewrite Heq |].
           destruct Hbest as [[-> ->] | Hlt]; [done | lra].
        -- pose proof (Hfar n ll ltac:(left) Hll Hne) as Hlt.
           destruct Hin as [-> | (n' & Hn' & Hk')].
           ++ left. destruct (Rlt_dec _ _); [lra | done].
           ++ right. exists n'. split; [| done].
              apply elem_of_cons in Hn' as [-> | Hn']; [done | done].
      * destruct Hin as [-> | (n' & Hn' & Hk')]; [by left |].
        right. exists n'. split; [| done].
        apply elem_of_cons in Hn' as [-> | Hn']; [congruence | done].
Qed.
End Selector.

Section Selection.
Implicit Types (w : World) (getTarget : Sync (maybe_async (option LatLon))).

(** C3. With three nodes whose cached coordinates are A = (0,0),
    B = (0,10) and C = (0,90), and a target T = (0,1) that selection
    obtains, [pickBestNodeIdentifier] returns the Node Key of A, in
    whatever order the three nodes stand in the pool. *)
Theorem select_nearest_of_three w m getTarget na nb nc :
  the_manager w = Some m ->
  nodes m ≡ₚ [na; nb; nc] ->
  nodeGeo (this w) !! node_key na = Some (mkLatLon 0 0) ->
  nodeGeo (this w) !! node_key nb = Some (mkLatLon 0 10) ->
  nodeGeo (this w) !! node_key nc = Some (mkLatLon 0 90) ->
  selection_target getTarget w = Some (mkLatLon 0 1) ->
  fst (pickBestNodeIdentifier getTarget w) = Some (node_key na).
Proof.
  intros Hm Hperm Ha Hb Hc Ht.
  rewrite pickBestNodeIdentifier_value, Hm, Ht.
  destruct (nodes m) as [| first rest] eqn:Hns.
  { apply Permutation_length in Hperm. discriminate. }
  rewrite (foldl_consider_nearest _ _ (node_key na) (mkLatLon 0 0)); try done.
  - intros n ll Hn Hll Hne. rewrite Hperm in Hn.
    pose proof PI_RGT_0 as Hpi.
    assert (H1 : (Rabs (0 - 1) = 1)%R) by (rewrite Rabs_left; lra).
    rewrite haversineKm_equator by lra.
    apply elem_of_cons in Hn as [-> | Hn]; [done |].
    apply elem_of_cons in Hn as [-> | Hn].
    + assert (ll = mkLatLon 0 10) as -> by congruence.
      assert (H9 : (Rabs (10 - 1) = 9)%R) by (rewrite Rabs_pos_eq; lra).
      rewrite haversineKm_equator by lra.
      rewrite H1, H9. unfold Geo.R_km, Geo.toRad. lra.
    + apply list_elem_of_singleton in Hn as ->.
      assert (ll = mkLatLon 0 90) as -> by congruence.
      assert (H89 : (Rabs (90 - 1) = 89)%R) by (rewrite Rabs_pos_eq; lra).
      rewrite haversineKm_equator by lra.
      rewrite H1, H89. unfold Geo.R_km, Geo.toRad. lra.
  - right. exists na. split; [| done]. rewrite Hperm. left.
Qed.

(** C6. In a non-empty pool none of whose Node Keys has a cached
    coordinate, and also when no target coordinate is obtainable,
    [pickBestNodeIdentifier] returns, in the call itself, the Node Key
    of the first node in registration order (its identifier when it
    has one, its host otherwise), and the loop has recorded no
    distance. *)
Theorem select_first_node_fallback w m getTarget first rest :
  the_manager w = Some m ->
  nodes m = first :: rest ->
  (forall n, n ∈ nodes m -> nodeGeo (this w) !! node_key n = None) \/
  selection_target getTarget w = None ->
  fst (pickBestNodeIdentifier getTarget w)
    = Some (match identifier first with Some id => id | None => host first end)
  /\ forall loc,
       selection_target getTarget w = Some loc ->
       foldl (consider loc (nodeGeo (this w))) None (nodes m) = None.
Proof.
  intros Hm Hns Hcold.
  rewrite pickBestNodeIdentifier_value, Hm, Hns.
  change (match identifier first with Some id => id | None => host first end)
    with (node_key first).
  destruct Hcold as [Hcold | Hnone].
  - rewrite Hns in Hcold. split.
    + destruct (selection_target getTarget w) as [loc |]; [| done].
      by rewrite foldl_consider_none.
    + intros loc _. by apply foldl_consider_none.
  - rewrite Hnone. split; [done | discriminate].
Qed.

(** C10. A defined result of [pickBestNodeIdentifier] is the Node Key
    of a node of the pool, whatever the [nodeGeo] cache holds, and the
    result is undefined when the pool is empty (and only when there is
    no pool or it is empty). *)
Theorem select_returns_pool_key w getTarget :
  match fst (pickBestNodeIdentifier getTarget w) with
  | Some id =>
      exists m n, the_manager w = Some m /\ n ∈ nodes m /\ node_key n = id
  | None =>
      match the_manager w with
      | Some m => nodes m = []
      | None => True
      end
  end
  /\ (forall m, the_manager w = Some m -> nodes m = [] ->
        fst (pickBestNodeIdentifier getTarget w) = None).
Proof.
  rewrite pickBestNodeIdentifier_value. split.
  - destruct (the_manager w) as [m |]; [| done].
    destruct (nodes m) as [| first rest] eqn:Hns; [done |].
    assert (Hfirst : exists m0 n, Some m = Some m0 /\ n ∈ nodes m0 /\ node_key n = node_key first).
    { exists m, first. rewrite Hns. split; [done |]. split; [left | done]. }
    destruct (selection_target getTarget w) as [loc |]; [| done].
    destruct (foldl _ _ _) as [[id d] |] eqn:Hfold; [| done].
    apply foldl_consider_key in Hfold as [? | (n & Hn & Hk)]; [done |].
    exists m, n. by rewrite Hns.
  - intros m -> ->. done.
Qed.
End Selection.

(** ** Endpoint region parser *)

Section Parser.
Import ParserSpec.
Implicit Types (s : string) (l : list ascii) (sep c : ascii).

#[local] Abbreviation chars := String.list_ascii_of_string.
#[local] Abbreviation of_chars := String.string_of_list_ascii.

Lemma split_nonempty sep s : Str.split sep s ≠ [].
Proof.
  destruct s as [| c r]; cbn; [done |].
  destruct (Ascii.eqb c sep); [done |]. by destruct (Str.split sep r).
Qed.

(** [s.split(sep)[0]] is what stands before the first separator. *)
Lemma hd_split sep s :
  hd EmptyString (Str.split sep s) = of_chars (take_until sep (chars s)).
Proof.
  induction s as [| c r IH]; cbn; [done |].
  destruct (Ascii.eqb c sep); [done |].
  pose proof (split_nonempty sep r) as Hne.
  destruct (Str.split sep r) as [| seg segs]; [done |].
  cbn in *. by rewrite IH.
Qed.

Lemma take_until_absent sep l : sep ∉ l -> forall l', take_until sep (l ++ sep :: l') = l.
Proof.
  induction l as [| c l IH]; intros Hnot l'; cbn.
  - by rewrite Ascii.eqb_refl.
  - apply not_elem_of_cons in Hnot as [Hne Hnot].
    destruct (Ascii.eqb_spec c sep) as [-> | _]; [done |].
    by rewrite IH.
Qed.

Lemma take_until_absent_all sep l : sep ∉ l -> take_until sep l = l.
Proof.
  induction l as [| c l IH]; intros Hnot; cbn; [done |].
  apply not_elem_of_cons in Hnot as [Hne Hnot].
  destruct (Ascii.eqb_spec c sep) as [-> | _]; [done |].
  by rewrite IH.
Qed.

Lemma chars_app s1 s2 : chars (s1 +:+ s2) = chars s1 ++ chars s2.
Proof.
  induction s1 as [| c r IH]; [done |].
  change (chars (String c r +:+ s2)) with (c :: chars (r +:+ s2)).
  by rewrite IH.
Qed.

(** The port suffix is what [split(':')[0]] leaves out. *)
Lemma hd_split_with_port hostname port :
  no_colon hostname ->
  hd EmptyString (Str.split ":" (with_port hostname port)) = hostname.
Proof.
  intros Hnc. rewrite hd_split. unfold with_port.
  destruct port as [p |].
  - rewrite chars_app. cbn. rewrite take_until_absent by done.
    apply String.string_of_list_ascii_of_string.
  - rewrite take_until_absent_all by done.
    apply String.string_of_list_ascii_of_string.
Qed.

(** [s.split(sep).length] is one more than the separators in [s]. *)
Lemma length_split sep s :
  length (Str.split sep s) = S (count_sep sep (chars s)).
Proof.
  unfold count_sep. induction s as [| c r IH]; [done |].
  cbn [Str.split String.list_ascii_of_string]. rewrite filter_cons.
  destruct (Ascii.eqb_spec c sep) as [-> | Hne].
  - rewrite decide_True by done. cbn [length]. by rewrite IH.
  - rewrite decide_False by done.
    pose proof (split_nonempty sep r) as Hnil.
    destruct (Str.split sep r) as [| seg segs]; [done |].
    exact IH.
Qed.

Lemma all_digits_forallb s : Str.all_digits s = forallb Str.is_digit (chars s).
Proof. induction s as [| c r IH]; cbn; [done | by rewrite IH]. Qed.

Lemma replace_all_digits s :
  Str.all_digits s = true -> Str.replace_trailing_digits s = EmptyString.
Proof. destruct s as [| c r]; cbn; [done |]. by intros ->. Qed.

Lemma drop_while_snoc {A} (p : A -> bool) (l : list A) x :
  drop_while p (l ++ [x]) =
  if forallb p l then (if p x then [] else [x]) else drop_while p l ++ [x].
Proof.
  induction l as [| y l IH]; cbn; [done |].
  destruct (p y); cbn; [exact IH | done].
Qed.

Lemma forallb_rev {A} (p : A -> bool) (l : list A) :
  forallb p (rev l) = forallb p l.
Proof.
  induction l as [| y l IH]; cbn; [done |].
  rewrite forallb_app, IH. cbn. destruct (p y), (forallb p l); done.
Qed.

(** The regular expression [\d+$] removes the trailing run of
    digits. *)
Lemma replace_trailing_digits_strip s :
  Str.replace_trailing_digits s = of_chars (strip_trailing_digits (chars s)).
Proof.
  unfold strip_trailing_digits.
  induction s as [| c r IH]; [done |].
  cbn [Str.replace_trailing_digits Str.all_digits chars rev].
  rewrite drop_while_snoc, forallb_rev, <- all_digits_forallb.
  destruct (Str.all_digits r) eqn:Hr.
  - rewrite andb_true_r.
    destruct (Str.is_digit c); [done |].
    by rewrite replace_all_digits.
  - rewrite andb_false_r, rev_app_distr. cbn. by rewrite IH.
Qed.

Lemma truthy_of_chars l : Str.truthy (of_chars l) = bool_decide (l ≠ []).
Proof. by destruct l. Qed.

(** C5. On an endpoint [hostname[:port]] the parser strips the port,
    splits the host name on the dots, is unresolved with fewer than
    three segments, and otherwise returns the first segment without
    its trailing run of digits, unresolved when nothing is left; and
    the three endpoints of the specification give the stated
    results. *)
Theorem parseDiscordRegionFromEndpoint_spec hostname port :
  no_colon hostname ->
  parseDiscordRegionFromEndpoint (with_port hostname port)
    = region_of_hostname hostname
  /\ parseDiscordRegionFromEndpoint "us-east123.discord.media:443" = Some "us-east"
  /\ parseDiscordRegionFromEndpoint "localhost" = None
  /\ parseDiscordRegionFromEndpoint "a.b" = None.
Proof.
  intros Hnc. split; [| by vm_compute].
  unfold parseDiscordRegionFromEndpoint, region_of_hostname.
  rewrite hd_split_with_port by done.
  rewrite length_split. fold (segments hostname).
  destruct (segments hostname <? 3)%nat; [done |].
  rewrite hd_split, replace_trailing_digits_strip.
  rewrite String.list_ascii_of_string_of_list_ascii. fold (first_segment hostname).
  rewrite truthy_of_chars.
  by destruct (strip_trailing_digits (first_segment hostname)).
Qed.

Lemma parseDiscordRegionFromEndpoint_spec_witness :
  no_colon "eu-west42.discord.media" /\
  parseDiscordRegionFromEndpoint (with_port "eu-west42.discord.media" (Some "443"))
    = Some "eu-west".
Proof.
  assert (Hnc : no_colon "eu-west42.discord.media")
    by (apply (bool_decide_unpack _); by vm_compute).
  split; [exact Hnc |].
  destruct (parseDiscordRegionFromEndpoint_spec
              "eu-west42.discord.media" (Some "443") Hnc) as [H _].
  rewrite H. by vm_compute.
Defined.
End Parser.

(** ** Target resolution *)

Section TargetResolution.
Implicit Types (w : World) (g : string).

(** Step (a): what the guild cache holds is returned before anything
    else is looked at. *)
Lemma getTargetForGuild_cached w g v :
  guildGeo (this w) !! g = Some v ->
  getTargetForGuild g w = (Fulfilled (Some v), []).
Proof. intros H. unfold getTargetForGuild, bind, read, ret. cbn. by rewrite H. Qed.

(** Step (c) when no resolver is configured. *)
Lemma getTargetForGuild_no_resolver w g :
  guildGeo (this w) !! g = None ->
  getGuildLocation (options (this w)) = None ->
  fst (getTargetForGuild g w) = Fulfilled (Own <$> selfGeo (this w)).
Proof.
  intros Hg Hr. unfold getTargetForGuild.
  rewrite fst_bind. cbn [read fst]. rewrite Hg.
  rewrite fst_bind. cbn [read fst]. rewrite Hr.
  rewrite fst_bind. cbn [ret fst]. by rewrite getSelfLocationCached_value.
Qed.

(** Step (c) when the resolver has no answer. *)
Lemma getTargetForGuild_resolver_absent w g f :
  guildGeo (this w) !! g = None ->
  getGuildLocation (options (this w)) = Some f ->
  f g = Fulfilled None ->
  fst (getTargetForGuild g w) = Fulfilled (Own <$> selfGeo (this w)).
Proof.
  intros Hg Hr Hf. unfold getTargetForGuild.
  rewrite fst_bind. cbn [read fst]. rewrite Hg.
  rewrite fst_bind. cbn [read fst]. rewrite Hr, Hf.
  rewrite fst_bind. cbn [ret fst]. by rewrite getSelfLocationCached_value.
Qed.

(** Step (b): the answer of the resolver, normalized, is the result. *)
Lemma getTargetForGuild_resolver_value w g f v :
  guildGeo (this w) !! g = None ->
  getGuildLocation (options (this w)) = Some f ->
  f g = Fulfilled (Some v) ->
  getTargetForGuild g w = (normalizeLoc (Own v), []).
Proof.
  intros Hg Hr Hf. unfold getTargetForGuild, bind, read, ret. cbn.
  by rewrite Hg, Hr, Hf.
Qed.

(** C1. [getTargetForGuild] tries the cached coordinate, then the
    resolver, then the self-location; but when the resolver answers
    with a region code that the table does not have, the result is
    unresolved and the self-location is not consulted, whatever it
    holds: the third step is not reached. *)
Theorem getTargetForGuild_unknown_region w g f region :
  guildGeo (this w) !! g = None ->
  getGuildLocation (options (this w)) = Some f ->
  f g = Fulfilled (Some (RegionCode region)) ->
  regionToLatLon region = None ->
  getTargetForGuild g w = (Fulfilled None, []).
Proof.
  intros Hg Hr Hf Hregion.
  rewrite (getTargetForGuild_resolver_value w g f _ Hg Hr Hf).
  unfold normalizeLoc. by rewrite Hregion.
Qed.

Lemma getTargetForGuild_unknown_region_witness :
  selfGeo (this Examples.unknown_region_world) = Some (mkLatLon 10 20) /\
  getTargetForGuild "g" Examples.unknown_region_world = (Fulfilled None, []).
Proof.
  split; [reflexivity |].
  apply (getTargetForGuild_unknown_region _ _ (fun _ => Fulfilled (Some (RegionCode "mars"))) "mars");
    reflexivity.
Defined.
End TargetResolution.

(** ** External geo lookup *)

Section GeoLookupFacts.
Import GeoLookup.
Implicit Types (net : Network) (data : json).

(** C7. [geoByHost] does not fail soft on every payload: when the
    primary provider answers with a status below 400 and a JSON value
    that is truthy and not an object (a number, a string, [true]),
    the [in] test throws, the promise of [geoByHost] is rejected with
    a [TypeError] and the secondary provider is not asked. *)
Theorem geoByHost_primitive_payload_rejects net host statusCode data :
  net (IpWhoIs host) = Responded statusCode (JsonBody data) ->
  (statusCode < 400)%Z ->
  truthy data = true ->
  is_object data = false ->
  geoByHost net host = Rejected TypeError.
Proof.
  intros Hnet Hstatus Htruthy Hobj.
  unfold geoByHost. cbn [geoByHost_urls]. unfold fetchJson at 1. rewrite Hnet.
  replace (statusCode >=? 400)%Z with false by lia.
  cbn [catch_undefined await]. rewrite Htruthy. cbn [negb].
  unfold ipwhois_shape. by destruct data.
Qed.

Lemma geoByHost_primitive_payload_rejects_witness :
  geoByHost Examples.string_payload_network "203.0.113.7" = Rejected TypeError.
Proof.
  apply (geoByHost_primitive_payload_rejects _ _ 200 (JString "limit reached"));
    [reflexivity | lia | reflexivity | reflexivity].
Defined.
End GeoLookupFacts.

Section GeoLookupSoft.
Import GeoLookup.
Implicit Types (net : Network) (urls : list url).

Lemma fetchJson_settles net u : fetchJson net u ≠ Unsettled.
Proof.
  unfold fetchJson. destruct (net u) as [| | statusCode body]; try done.
  destruct (statusCode >=? 400)%Z; [done |]. by destruct body.
Qed.

Lemma shape_of_object data :
  is_object data = true ->
  (exists r, ipwhois_shape data = Normal r) /\ (exists r, ipapi_shape data = Normal r).
Proof.
  intros Hobj. unfold ipwhois_shape, ipapi_shape.
  destruct data; try done; cbn [has_property].
  - split; by eexists.
  - split.
    + destruct (bool_decide _); [| by eexists].
      destruct (truthy_prop _); [| by eexists].
      destruct (as_number _); [| by eexists].
      destruct (as_number _); by eexists.
    + destruct (bool_decide _); [| by eexists].
      destruct (is_success_string _); [| by eexists].
      destruct (as_number _); [| by eexists].
      destruct (as_number _); by eexists.
Qed.

(** The lookup does fail soft as long as every payload that parses
    is an object, an array or a falsy value. *)
Lemma geoByHost_urls_soft net urls :
  (forall u statusCode data,
     net u = Responded statusCode (JsonBody data) -> (statusCode < 400)%Z ->
     truthy data = true -> is_object data = true) ->
  exists r, geoByHost_urls net urls = Fulfilled r.
Proof.
  intros Hobj. induction urls as [| u urls IH]; cbn [geoByHost_urls]; [by eexists |].
  unfold fetchJson. destruct (net u) as [| | statusCode body] eqn:Hu; cbn; try done.
  destruct (statusCode >=? 400)%Z eqn:Hs; cbn; [done |].
  assert (Hdata : forall data, body = JsonBody data -> truthy data = true ->
                    is_object data = true).
  { intros data -> Ht. apply (Hobj u statusCode); [done | lia | done]. }
  destruct body as [| data |]; cbn; [| | done].
  - exact IH.
  - destruct (truthy data) eqn:Ht; cbn; [| done].
    destruct (shape_of_object data (Hdata _ eq_refl Ht)) as [[r1 ->] [r2 ->]].
    destruct r1; [by eexists |]. destruct r2; [by eexists | done].
Qed.

Lemma geoByHost_urls_settles net urls : geoByHost_urls net urls ≠ Unsettled.
Proof.
  induction urls as [| u urls IH]; cbn [geoByHost_urls]; [done |].
  pose proof (fetchJson_settles net u) as Hf.
  destruct (fetchJson net u) as [data | e |]; cbn; [| done | done].
  destruct (negb (truthy data)); [done |].
  destruct (ipwhois_shape data) as [[ll |] | e]; [done | | done].
  by destruct (ipapi_shape data) as [[ll |] | e].
Qed.

(** One layer up, what [geoByHost] rejects with is caught; the one
    rejection of [resolveNodeLocation] comes from [normalizeLoc],
    when the read of [nodeLocations] under the Node Key gives an
    inherited member. *)
Lemma resolveNodeLocation_soft net o node :
  match nodeLocations_get o (node_key node) with
  | Some (Inherited _) => resolveNodeLocation net o node = Rejected TypeError
  | _ => exists r, resolveNodeLocation net o node = Fulfilled r
  end.
Proof.
  unfold resolveNodeLocation.
  destruct (nodeLocations_get o (node_key node)) as [[override | name] |].
  - destruct override as [ll | region]; cbn; by eexists.
  - reflexivity.
  - pose proof (geoByHost_urls_settles net [IpWhoIs (host node); IpApi (host node)]) as Hs.
    unfold geoByHost. destruct (geoByHost_urls _ _) as [[ll |] | e |]; cbn;
      [by eexists .. | done].
Qed.

(** On the sample network the secondary provider would have given a
    coordinate. *)
Lemma string_payload_network_secondary host :
  geoByHost_urls Examples.string_payload_network [IpApi host]
    = Fulfilled (Some (mkLatLon 50.11 8.68)).
Proof. reflexivity. Qed.
End GeoLookupSoft.

(** ** The intercepted create *)

Section Create.
Implicit Types (w : World) (opts : PlayerOptions) (g : string).

(** The target closure of the patched [create] hands a promise to
    selection, so selection measures from the cached self-location
    and from nothing else. *)
Lemma selection_target_of_guild w g :
  selection_target (target_of g) w = selfGeo (this w).
Proof.
  unfold selection_target, target_of. by rewrite fst_bind.
Qed.

(** A node strictly nearer to the coordinate selection measures from
    than every node of another key is the one selected. *)
Lemma pickBestNodeIdentifier_nearest w m getTarget loc k llk :
  the_manager w = Some m ->
  selection_target getTarget w = Some loc ->
  nodeGeo (this w) !! k = Some llk ->
  (exists n, n ∈ nodes m /\ node_key n = k) ->
  (forall n ll, n ∈ nodes m -> nodeGeo (this w) !! node_key n = Some ll ->
     node_key n ≠ k -> (Geo.haversineKm loc llk < Geo.haversineKm loc ll)%R) ->
  fst (pickBestNodeIdentifier getTarget w) = Some k.
Proof.
  intros Hm Ht Hk Hin Hfar.
  rewrite pickBestNodeIdentifier_value, Hm, Ht.
  destruct (nodes m) as [| first rest] eqn:Hns.
  { destruct Hin as (n & Hn & _). by apply elem_of_nil in Hn. }
  rewrite (foldl_consider_nearest _ _ k llk); try done. by right.
Qed.

Lemma patched_options_value opts w :
  fst (patched_options opts w) =
  if pinned opts then opts
  else match fst (pickBestNodeIdentifier (target_of (guildId opts)) w) with
       | Some id => if Str.truthy id then set_nodeIdentifier id opts else opts
       | None => opts
       end.
Proof.
  unfold patched_options. destruct (pinned opts); [done |].
  cbn [negb]. rewrite fst_bind.
  destruct (fst (pickBestNodeIdentifier _ w)) as [id |]; [| done].
  by destruct (Str.truthy id).
Qed.

Lemma patchedCreate_value opts w :
  fst (patchedCreate opts w) =
  match originalCreate (this w) with
  | Some f => Normal (mkCall f (fst (patched_options opts w)))
  | None => Throw TypeError
  end.
Proof.
  unfold patchedCreate. rewrite !fst_bind. cbn [read fst].
  by destruct (originalCreate (this w)).
Qed.

(** Distances on the equator from longitude 0 and to longitude 0. *)
Lemma equator_0_lt_90 :
  (Geo.haversineKm (mkLatLon 0 0) (mkLatLon 0 0)
     < Geo.haversineKm (mkLatLon 0 0) (mkLatLon 0 90))%R.
Proof.
  pose proof PI_RGT_0.
  rewrite !haversineKm_equator;
    rewrite ?Rminus_diag, ?Rminus_0_r, ?Rabs_R0, ?Rabs_pos_eq; try lra.
  unfold Geo.R_km, Geo.toRad. lra.
Qed.

Lemma equator_90_lt_0 :
  (Geo.haversineKm (mkLatLon 0 90) (mkLatLon 0 90)
     < Geo.haversineKm (mkLatLon 0 90) (mkLatLon 0 0))%R.
Proof.
  pose proof PI_RGT_0.
  assert (Rabs (0 - 90) = 90)%R as H90 by (rewrite Rabs_left; lra).
  rewrite !haversineKm_equator; rewrite ?Rminus_diag, ?Rabs_R0, ?H90; try lra.
  unfold Geo.R_km, Geo.toRad. lra.
Qed.

(** C2. The intercepted [create] does not use a coordinate that is
    in the guild cache: [getTargetForGuild] is [async], what selection
    receives is always a promise, and the promise is dropped. In
    every state selection measures from the cached self-location; in
    the sample state the guild ["g"] is cached at the coordinate of
    node C, and [create] pins node A, the node nearest to the host of
    the bot, although C is the node nearest to the cached
    coordinate. *)
Theorem patchedCreate_drops_cached_guild :
  (forall w g, selection_target (target_of g) w = selfGeo (this w))
  /\ guildGeo (this Examples.guild_cached_world) !! "g" = Some (Own (mkLatLon 0 90))
  /\ fst (patchedCreate (Examples.player "g" None) Examples.guild_cached_world)
     = Normal (mkCall Examples.host_create (Examples.player "g" (Some "a")))
  /\ fst (pickBestNodeIdentifier (ret (Now (Some (mkLatLon 0 90))))
            Examples.guild_cached_world)
     = Some "c.example.net".
Proof.
  split; [exact selection_target_of_guild |].
  split; [reflexivity |]. split.
  - rewrite patchedCreate_value, patched_options_value. cbn [pinned Examples.player nodeIdentifier guildId].
    rewrite (pickBestNodeIdentifier_nearest _
               (mkManager [Examples.node_a; Examples.node_c] PatchedCreate PatchedUpdateVoiceState)
               _ (mkLatLon 0 0) "a" (mkLatLon 0 0)).
    + reflexivity.
    + reflexivity.
    + by rewrite selection_target_of_guild.
    + reflexivity.
    + exists Examples.node_a. split; [left | reflexivity].
    + intros n ll Hn Hll Hne.
      apply elem_of_cons in Hn as [-> | Hn]; [done |].
      apply list_elem_of_singleton in Hn as ->.
      assert (Some ll = Some (mkLatLon 0 90)) as [= ->] by (by rewrite <- Hll).
      exact equator_0_lt_90.
  - apply (pickBestNodeIdentifier_nearest _
               (mkManager [Examples.node_a; Examples.node_c] PatchedCreate PatchedUpdateVoiceState)
               _ (mkLatLon 0 90) _ (mkLatLon 0 90)).
    + reflexivity.
    + reflexivity.
    + reflexivity.
    + exists Examples.node_c. split; [right; left | reflexivity].
    + intros n ll Hn Hll Hne.
      apply elem_of_cons in Hn as [-> | Hn].
      * assert (Some ll = Some (mkLatLon 0 0)) as [= ->] by (by rewrite <- Hll).
        exact equator_90_lt_0.
      * apply list_elem_of_singleton in Hn as ->. done.
Qed.
End Create.

Section CreateFrame.
Implicit Types (w : World) (opts : PlayerOptions).

Lemma pinned_is_Some opts : pinned opts = true -> is_Some (nodeIdentifier opts).
Proof. unfold pinned. destruct (nodeIdentifier opts); [by eexists | done]. Qed.

(** C9, as amended. The original [create] is called with a copy of
    the caller's options in which nothing but [nodeIdentifier] can
    differ; [nodeIdentifier] differs only when the caller's one is
    absent or the empty string, and it is then a non-empty Node Key
    that selection returned; a non-empty [nodeIdentifier] of the
    caller reaches the original [create] with options equal to the
    caller's. *)
Theorem patchedCreate_injects_only_unpinned w opts c :
  fst (patchedCreate opts w) = Normal c ->
  Some (callee c) = originalCreate (this w)
  /\ guildId (argument c) = guildId opts
  /\ otherOptions (argument c) = otherOptions opts
  /\ (pinned opts = true -> argument c = opts)
  /\ (nodeIdentifier (argument c) ≠ nodeIdentifier opts ->
        pinned opts = false /\
        exists id,
          fst (pickBestNodeIdentifier (target_of (guildId opts)) w) = Some id /\
          Str.truthy id = true /\ nodeIdentifier (argument c) = Some id).
Proof.
  rewrite patchedCreate_value, patched_options_value.
  destruct (originalCreate (this w)) as [f |]; [| done].
  intros [= <-]. cbn [callee argument].
  destruct (pinned opts) eqn:Hpin; [done |].
  destruct (fst (pickBestNodeIdentifier _ w)) as [id |]; [| done].
  destruct (Str.truthy id) eqn:Hid; [| done].
  do 4 (split; [done |]). intros _. split; [done |]. by exists id.
Qed.

Lemma patchedCreate_injects_only_unpinned_witness :
  exists c,
    fst (patchedCreate (Examples.player "g" (Some "b")) Examples.three_nodes_world)
      = Normal c /\
    callee c = Examples.host_create /\
    argument c = Examples.player "g" (Some "b").
Proof.
  exists (mkCall Examples.host_create (Examples.player "g" (Some "b"))).
  assert (H : fst (patchedCreate (Examples.player "g" (Some "b")) Examples.three_nodes_world)
              = Normal (mkCall Examples.host_create (Examples.player "g" (Some "b")))).
  { by rewrite patchedCreate_value, patched_options_value. }
  split; [exact H |]. split; [reflexivity |].
  destruct (patchedCreate_injects_only_unpinned _ _ _ H) as (_ & _ & _ & Hpinned & _).
  by apply Hpinned.
Defined.

(** C9 as stated fails: an empty [nodeIdentifier] is supplied by the
    caller and replaced by the selected key. *)
Lemma patchedCreate_replaces_empty_identifier :
  ~ (forall w opts c,
       fst (patchedCreate opts w) = Normal c ->
       is_Some (nodeIdentifier opts) ->
       argument c = opts).
Proof.
  intros H.
  assert (Hcall : fst (patchedCreate (Examples.player "g" (Some "")) Examples.cold_world)
                  = Normal (mkCall Examples.host_create (Examples.player "g" (Some "b")))).
  { rewrite patchedCreate_value, patched_options_value.
    cbn [pinned Examples.player nodeIdentifier guildId Str.truthy].
    rewrite pickBestNodeIdentifier_value, selection_target_of_guild. reflexivity. }
  specialize (H _ _ _ Hcall ltac:(by eexists)). discriminate H.
Qed.
End CreateFrame.

Section SelectionWitnesses.

Lemma select_nearest_of_three_witness :
  fst (pickBestNodeIdentifier (ret (Now (Some (mkLatLon 0 1))))
         Examples.three_nodes_world) = Some "a".
Proof.
  apply (select_nearest_of_three Examples.three_nodes_world
           (mkManager [Examples.node_c; Examples.node_a; Examples.node_b]
              PatchedCreate PatchedUpdateVoiceState)
           _ Examples.node_a Examples.node_b Examples.node_c).
  - reflexivity.
  - cbn [nodes]. by rewrite (Permutation_cons_append [_; _] Examples.node_c).
  - reflexivity.
  - reflexivity.
  - reflexivity.
  - reflexivity.
Defined.

Lemma select_first_node_fallback_witness :
  fst (pickBestNodeIdentifier (target_of "g") Examples.cold_world) = Some "b".
Proof.
  apply (select_first_node_fallback Examples.cold_world
           (mkManager [Examples.node_b; Examples.node_a]
              PatchedCreate PatchedUpdateVoiceState)
           (target_of "g") Examples.node_b [Examples.node_a]).
  - reflexivity.
  - reflexivity.
  - left. intros n _. reflexivity.
Defined.
End SelectionWitnesses.

(** ** Load and unload *)

Section Lifecycle.
Implicit Types (w : World) (m : ref).

Lemma keeps_wiring_refl w : keeps_wiring w w.
Proof. by repeat split. Qed.

Lemma keeps_wiring_trans w1 w2 w3 :
  keeps_wiring w1 w2 -> keeps_wiring w2 w3 -> keeps_wiring w1 w3.
Proof.
  intros (Hm & Hc & Hu & Hh) (Hm' & Hc' & Hu' & Hh').
  repeat split; [congruence | congruence | congruence | auto].
Qed.

Lemma loaded_keeps_wiring w w' : loaded w -> keeps_wiring w w' -> loaded w'.
Proof.
  intros (m & mgr & c & u & Hm & Hh & Hc & Hu) (Hm' & Hc' & Hu' & Hh').
  destruct (Hh' m) as [mgr' Hmgr']; [by eexists |].
  exists m, mgr', c, u. repeat split; congruence.
Qed.

Lemma same_wiring_refl w : same_wiring w w.
Proof. by repeat split. Qed.

Lemma same_wiring_trans w1 w2 w3 :
  same_wiring w1 w2 -> same_wiring w2 w3 -> same_wiring w1 w3.
Proof.
  intros (? & ? & ? & ? & ? & ? & ? & ?) (? & ? & ? & ? & ? & ? & ? & ?).
  repeat split; congruence.
Qed.

Lemma same_wiring_keeps w w' : same_wiring w w' -> keeps_wiring w w'.
Proof.
  intros (Hh & _ & _ & _ & Hm & _ & Hc & Hu).
  repeat split; try done. intros m. by rewrite Hh.
Qed.

Lemma log_same_wiring msg w : same_wiring w (log msg w).
Proof. unfold log. destruct (debug _); by repeat split. Qed.

Lemma started_same_wiring ts w : same_wiring w (started ts w).
Proof. by repeat split. Qed.

Lemma set_pending_same_wiring f w : same_wiring w (set_pending f w).
Proof. by repeat split. Qed.

Lemma nodeGeo_set_same_wiring id ll w w' :
  nodeGeo_set id ll w = Some w' -> same_wiring w w'.
Proof.
  unfold nodeGeo_set. destruct ll as [[ll | name] |]; [| done |];
    intros [= <-]; by repeat split.
Qed.

Lemma nodeGeo_set_resolved_same_wiring id p w w' :
  nodeGeo_set_resolved id p w = Some w' -> same_wiring w w'.
Proof.
  unfold nodeGeo_set_resolved. destruct p as [ll | e |].
  - apply nodeGeo_set_same_wiring.
  - intros [= <-]. apply same_wiring_refl.
  - intros [= <-]. apply same_wiring_refl.
Qed.

Lemma refresh_nodes_same_wiring ns w w' :
  refresh_nodes ns w = Some w' -> same_wiring w w'.
Proof.
  revert w. induction ns as [| n ns IH]; intros w; cbn [refresh_nodes].
  { intros [= <-]. apply same_wiring_refl. }
  destruct (nodeLocations_get _ _) as [override |].
  - destruct (normalizeLoc override) as [ll | e |].
    + destruct (nodeGeo_set (node_key n) ll w) as [w1 |] eqn:Hset; [| done].
      intros Hrest. eapply same_wiring_trans; [| by apply IH].
      by apply (nodeGeo_set_same_wiring (node_key n) ll).
    + intros [= <-]. apply log_same_wiring.
    + intros [= <-]. apply same_wiring_refl.
  - intros Hrest. eapply same_wiring_trans; [| by apply IH].
    apply started_same_wiring.
Qed.

Lemma run_task_same_wiring net t w w' :
  run_task net t w = Some w' -> same_wiring w w'.
Proof.
  destruct t as [| id node |]; cbn [run_task].
  - destruct (the_manager w); [apply refresh_nodes_same_wiring |].
    intros [= <-]. apply same_wiring_refl.
  - apply nodeGeo_set_resolved_same_wiring.
  - destruct (GeoLookup.getSelfLocation net); intros [= <-]; by repeat split.
Qed.

Lemma patchedUpdateVoiceState_same_wiring data w :
  same_wiring w (patchedUpdateVoiceState data w).
Proof.
  unfold patchedUpdateVoiceState.
  destruct (extractVoiceServerUpdate data) as [[[guild_id |] endpoint] |];
    try apply same_wiring_refl.
  destruct (truthy guild_id && Str.truthy endpoint); [| apply same_wiring_refl].
  destruct (parseDiscordRegionFromEndpoint endpoint) as [region |];
    [| apply same_wiring_refl].
  destruct (regionToLatLon region) as [latlon |]; [| apply same_wiring_refl].
  assert (Hset : same_wiring w (set_this (guildGeo_set guild_id latlon) w)).
  { unfold guildGeo_set. destruct guild_id; by repeat split. }
  destruct latlon as [ll | name]; [| exact Hset].
  eapply same_wiring_trans; [exact Hset | apply log_same_wiring].
Qed.

(** Activity other than the registration of nodes leaves the wiring
    as it is. *)
Lemma activity_same_wiring w w' :
  activity w w' ->
  same_wiring w w' \/
  exists m ns,
    w' = set_heap (alter (fun mgr => mkManager ns (create mgr) (updateVoiceState mgr)) m) w.
Proof.
  intros [opts | data | m ns | t Ht | net before t after w1 Hp Hrun].
  - left. apply started_same_wiring.
  - left. apply patchedUpdateVoiceState_same_wiring.
  - right. by exists m, ns.
  - left. apply started_same_wiring.
  - left. eapply same_wiring_trans; [apply set_pending_same_wiring |].
    by apply (run_task_same_wiring net t).
Qed.

Lemma log_keeps_wiring msg w : keeps_wiring w (log msg w).
Proof. apply same_wiring_keeps, log_same_wiring. Qed.

Lemma started_keeps_wiring ts w : keeps_wiring w (started ts w).
Proof. apply same_wiring_keeps, started_same_wiring. Qed.

Lemma set_heap_alter_keeps_wiring f m w :
  keeps_wiring w (set_heap (alter f m) w).
Proof.
  repeat split; try done. intros m' [mgr Hmgr]. cbn.
  rewrite lookup_alter. case_decide; subst; rewrite Hmgr; by eexists.
Qed.

Lemma clear_interval_keeps_wiring w : keeps_wiring w (clear_interval w).
Proof. unfold clear_interval. destruct (interval (this w)); by repeat split. Qed.

Lemma restore_create_keeps_wiring w : keeps_wiring w (restore_create w).
Proof.
  unfold restore_create.
  destruct (manager (this w)), (originalCreate (this w));
    try apply keeps_wiring_refl. apply set_heap_alter_keeps_wiring.
Qed.

Lemma restore_updateVoiceState_keeps_wiring w :
  keeps_wiring w (restore_updateVoiceState w).
Proof.
  unfold restore_updateVoiceState.
  destruct (manager (this w)), (originalUpdateVoiceState (this w));
    try apply keeps_wiring_refl. apply set_heap_alter_keeps_wiring.
Qed.

Lemma unload_keeps_wiring m w : keeps_wiring w (unload m w).
Proof.
  unfold unload.
  eapply keeps_wiring_trans; [apply log_keeps_wiring |].
  eapply keeps_wiring_trans; [apply clear_interval_keeps_wiring |].
  eapply keeps_wiring_trans; [apply restore_create_keeps_wiring |].
  eapply keeps_wiring_trans; [apply restore_updateVoiceState_keeps_wiring |].
  apply log_keeps_wiring.
Qed.

Lemma log_this msg w : this (log msg w) = this w.
Proof. unfold log. by destruct (debug _). Qed.

Lemma log_heap msg w : heap (log msg w) = heap w.
Proof. unfold log. by destruct (debug _). Qed.

(** [load] on a live manager captures both entry points. *)
Lemma load_loaded m w : is_Some (heap w !! m) -> loaded (load m w).
Proof.
  intros [mgr Hmgr]. unfold load.
  eapply loaded_keeps_wiring; [| apply log_keeps_wiring].
  set (w1 := started _ (log _ (set_this (set_manager m) w))).
  set (w2 := match refreshIntervalMs _ with Some _ => _ | None => _ end).
  assert (Hh : heap w2 = heap w).
  { subst w2 w1. destruct (refreshIntervalMs _) as [ms |]; [destruct (0 <? ms)%Z |];
      cbn; by rewrite log_heap. }
  assert (Hm : manager (this w2) = Some m).
  { subst w2 w1. destruct (refreshIntervalMs _) as [ms |]; [destruct (0 <? ms)%Z |];
      cbn; by rewrite log_this. }
  rewrite Hh, Hmgr.
  exists m, (mkManager (nodes mgr) PatchedCreate PatchedUpdateVoiceState),
    (Bound (create mgr) m), (Bound (updateVoiceState mgr) m).
  cbn. by rewrite Hm, lookup_insert_eq.
Qed.

Lemma activity_keeps_wiring w w' : activity w w' -> keeps_wiring w w'.
Proof.
  intros [Hsame | (m & ns & ->)]%activity_same_wiring.
  - by apply same_wiring_keeps.
  - apply set_heap_alter_keeps_wiring.
Qed.

Lemma step_loaded w w' : loaded w -> step w w' -> loaded w'.
Proof.
  intros Hl [m Hm | m | w1 Hact].
  - by apply load_loaded.
  - eapply loaded_keeps_wiring; [done | apply unload_keeps_wiring].
  - eapply loaded_keeps_wiring; [done | by apply activity_keeps_wiring].
Qed.

(** Every state reached after [load] is a loaded one. *)
Lemma reachable_after_load_loaded w : reachable_after_load w -> loaded w.
Proof.
  intros (o & h & m & Hm & Hsteps).
  assert (Hl : loaded (load m (initial o h))) by by apply load_loaded.
  induction Hsteps as [| w1 w2 w3 Hstep _ IH]; [done |].
  apply IH. by apply (step_loaded w1).
Qed.
End Lifecycle.


Section Unload.
Implicit Types (w : World) (m : ref).

Lemma restore_both (h : gmap ref Manager) m mgr c u :
  h !! m = Some mgr ->
  alter (fun mgr => mkManager (nodes mgr) (create mgr) u) m
    (alter (fun mgr => mkManager (nodes mgr) c (updateVoiceState mgr)) m h)
  = <[m := mkManager (nodes mgr) c u]> h.
Proof.
  intros Hm. apply map_eq. intros i.
  rewrite lookup_insert, !lookup_alter.
  destruct (decide (m = i)) as [<- | Hne]; [| done].
  rewrite decide_True by done. by rewrite Hm.
Qed.

(** What each statement of [unload] leaves alone. *)
Lemma log_timers msg w : timers (log msg w) = timers w.
Proof. unfold log. by destruct (debug _). Qed.

Lemma log_next_timer msg w : next_timer (log msg w) = next_timer w.
Proof. unfold log. by destruct (debug _). Qed.

Lemma log_pending msg w : pending (log msg w) = pending w.
Proof. unfold log. by destruct (debug _). Qed.

Lemma log_console msg w :
  console (log msg w)
    = console w ++ (if debug (options (this w)) then [msg] else []).
Proof. unfold log. destruct (debug _); cbn; by rewrite ?app_nil_r. Qed.

Lemma clear_interval_this w : this (clear_interval w) = this w.
Proof. unfold clear_interval. by destruct (interval (this w)). Qed.

Lemma clear_interval_heap w : heap (clear_interval w) = heap w.
Proof. unfold clear_interval. by destruct (interval (this w)). Qed.

Lemma clear_interval_next_timer w : next_timer (clear_interval w) = next_timer w.
Proof. unfold clear_interval. by destruct (interval (this w)). Qed.

Lemma clear_interval_pending w : pending (clear_interval w) = pending w.
Proof. unfold clear_interval. by destruct (interval (this w)). Qed.

Lemma clear_interval_console w : console (clear_interval w) = console w.
Proof. unfold clear_interval. by destruct (interval (this w)). Qed.

Lemma clear_interval_timers w :
  timers (clear_interval w)
    = match interval (this w) with
      | Some t => timers w ∖ {[t]}
      | None => timers w
      end.
Proof. unfold clear_interval. by destruct (interval (this w)). Qed.

Ltac restore_frame :=
  intros w; unfold restore_create, restore_updateVoiceState;
  by destruct (manager (this w)), (originalCreate (this w)),
    (originalUpdateVoiceState (this w)).

Lemma restore_create_this : forall w, this (restore_create w) = this w.
Proof. restore_frame. Qed.

Lemma restore_create_timers : forall w, timers (restore_create w) = timers w.
Proof. restore_frame. Qed.

Lemma restore_create_next_timer :
  forall w, next_timer (restore_create w) = next_timer w.
Proof. restore_frame. Qed.

Lemma restore_create_pending : forall w, pending (restore_create w) = pending w.
Proof. restore_frame. Qed.

Lemma restore_create_console : forall w, console (restore_create w) = console w.
Proof. restore_frame. Qed.

Lemma restore_updateVoiceState_this :
  forall w, this (restore_updateVoiceState w) = this w.
Proof. restore_frame. Qed.

Lemma restore_updateVoiceState_timers :
  forall w, timers (restore_updateVoiceState w) = timers w.
Proof. restore_frame. Qed.

Lemma restore_updateVoiceState_next_timer :
  forall w, next_timer (restore_updateVoiceState w) = next_timer w.
Proof. restore_frame. Qed.

Lemma restore_updateVoiceState_pending :
  forall w, pending (restore_updateVoiceState w) = pending w.
Proof. restore_frame. Qed.

Lemma restore_updateVoiceState_console :
  forall w, console (restore_updateVoiceState w) = console w.
Proof. restore_frame. Qed.

Create Rewrite HintDb unload_frame.
#[local] Hint Rewrite log_this log_heap log_timers log_next_timer log_pending
  clear_interval_this clear_interval_heap clear_interval_next_timer
  clear_interval_pending clear_interval_console clear_interval_timers
  restore_create_this restore_create_timers restore_create_next_timer
  restore_create_pending restore_create_console
  restore_updateVoiceState_this restore_updateVoiceState_timers
  restore_updateVoiceState_next_timer restore_updateVoiceState_pending
  restore_updateVoiceState_console : unload_frame.

(** The fields of the instance are not written by [unload]. *)
Lemma unload_this m0 w : this (unload m0 w) = this w.
Proof. unfold unload. cbv zeta. by autorewrite with unload_frame. Qed.

Lemma unload_timers m0 w :
  timers (unload m0 w)
    = match interval (this w) with
      | Some t => timers w ∖ {[t]}
      | None => timers w
      end.
Proof. unfold unload. cbv zeta. by autorewrite with unload_frame. Qed.

Lemma unload_next_timer m0 w : next_timer (unload m0 w) = next_timer w.
Proof. unfold unload. cbv zeta. by autorewrite with unload_frame. Qed.

Lemma unload_pending m0 w : pending (unload m0 w) = pending w.
Proof. unfold unload. cbv zeta. by autorewrite with unload_frame. Qed.

Lemma unload_console m0 w :
  console (unload m0 w)
    = console w ++
      (if debug (options (this w))
       then [Text "Unloading MagmaConnect plugin"; Text "MagmaConnect plugin unloaded"]
       else []).
Proof.
  unfold unload. cbv zeta. rewrite log_console.
  autorewrite with unload_frame. rewrite log_console, <- app_assoc.
  by destruct (debug _).
Qed.

Lemma unload_heap m0 w m mgr c u :
  manager (this w) = Some m -> heap w !! m = Some mgr ->
  originalCreate (this w) = Some c ->
  originalUpdateVoiceState (this w) = Some u ->
  heap (unload m0 w) = <[m := mkManager (nodes mgr) c u]> (heap w).
Proof.
  intros Hm Hh Hc Hu. unfold unload. cbv zeta. rewrite log_heap.
  unfold restore_updateVoiceState. autorewrite with unload_frame.
  rewrite Hm, Hu. unfold restore_create. autorewrite with unload_frame.
  rewrite Hm, Hc. cbn [heap set_heap]. autorewrite with unload_frame.
  by apply restore_both.
Qed.

(** In every state reached after [load], [unload] cancels the timer
    the instance holds and writes into the manager the two functions
    the instance holds as the originals; nothing else is written but
    the console. *)
Lemma unload_writes_back w m0 :
  reachable_after_load w ->
  exists m mgr c u,
    manager (this w) = Some m /\ heap w !! m = Some mgr /\
    originalCreate (this w) = Some c /\
    originalUpdateVoiceState (this w) = Some u /\
    heap (unload m0 w) = <[m := mkManager (nodes mgr) c u]> (heap w) /\
    timers (unload m0 w)
      = match interval (this w) with
        | Some t => timers w ∖ {[t]}
        | None => timers w
        end /\
    this (unload m0 w) = this w /\
    next_timer (unload m0 w) = next_timer w /\
    pending (unload m0 w) = pending w.
Proof.
  intros Hreach.
  destruct (reachable_after_load_loaded w Hreach) as (m & mgr & c & u & Hm & Hh & Hc & Hu).
  exists m, mgr, c, u. do 4 (split; [done |]).
  rewrite unload_this, unload_timers, unload_next_timer, unload_pending.
  split; [by apply unload_heap | done].
Qed.
End Unload.

Section Load.
Implicit Types (w : World) (m : ref).

Lemma load_before_patch m w :
  exists w2,
    load m w
      = log (Text "MagmaConnect plugin loaded")
          match heap w2 !! m with
          | Some mgr =>
              set_heap
                <[m := mkManager (nodes mgr) PatchedCreate PatchedUpdateVoiceState]>
                (set_this (set_originals (Bound (create mgr) m)
                                         (Bound (updateVoiceState mgr) m)) w2)
          | None => w2
          end
    /\ heap w2 = heap w
    /\ options (this w2) = options (this w)
    /\ manager (this w2) = Some m
    /\ nodeGeo (this w2) = nodeGeo (this w)
    /\ guildGeo (this w2) = guildGeo (this w)
    /\ selfGeo (this w2) = selfGeo (this w)
    /\ pending w2 = pending w ++ [RefreshAllNodeLocations]
    /\ next_timer w <= next_timer w2
    /\ match refreshIntervalMs (options (this w)) with
       | Some ms =>
           if (0 <? ms)%Z
           then interval (this w2) = Some (next_timer w) /\
                timers w2 = {[next_timer w]} ∪ timers w
           else interval (this w2) = interval (this w) /\ timers w2 = timers w
       | None => interval (this w2) = interval (this w) /\ timers w2 = timers w
       end.
Proof.
  set (w1 := started [RefreshAllNodeLocations]
               (log (Text "Loading MagmaConnect plugin") (set_this (set_manager m) w))).
  exists (match refreshIntervalMs (options (this w1)) with
          | Some ms => if (0 <? ms)%Z then setInterval w1 else w1
          | None => w1
          end).
  split; [reflexivity |].
  assert (H1 : heap w1 = heap w /\ this w1 = set_manager m (this w) /\
               pending w1 = pending w ++ [RefreshAllNodeLocations] /\
               timers w1 = timers w /\ next_timer w1 = next_timer w).
  { subst w1. cbn. by rewrite log_heap, log_this, log_pending, log_timers, log_next_timer. }
  destruct H1 as (Hh & Ht & Hp & Hti & Hn).
  assert (Ho : options (this w1) = options (this w)) by (by rewrite Ht).
  rewrite Ho. clearbody w1.
  destruct (refreshIntervalMs (options (this w))) as [ms |];
    [destruct (0 <? ms)%Z |]; cbn; rewrite ?Ht, ?Hh, ?Hp, ?Hti, ?Hn; cbn;
    repeat split; try done; lia.
Qed.

(** [load] writes none of the three caches and not the options. *)
Lemma load_caches m w :
  nodeGeo (this (load m w)) = nodeGeo (this w)
  /\ guildGeo (this (load m w)) = guildGeo (this w)
  /\ selfGeo (this (load m w)) = selfGeo (this w)
  /\ options (this (load m w)) = options (this w).
Proof.
  destruct (load_before_patch m w)
    as (w2 & -> & _ & Ho & _ & Hn & Hg & Hs & _).
  rewrite log_this. destruct (heap w2 !! m); cbn; by rewrite ?Hn, ?Hg, ?Hs, ?Ho.
Qed.

(** What [load] does to a live manager and to the fields that hold
    it. *)
Lemma load_patches m w mgr :
  heap w !! m = Some mgr ->
  heap (load m w)
    = <[m := mkManager (nodes mgr) PatchedCreate PatchedUpdateVoiceState]> (heap w)
  /\ manager (this (load m w)) = Some m
  /\ originalCreate (this (load m w)) = Some (Bound (create mgr) m)
  /\ originalUpdateVoiceState (this (load m w)) = Some (Bound (updateVoiceState mgr) m).
Proof.
  intros Hmgr.
  destruct (load_before_patch m w) as (w2 & -> & Hh & _ & Hm & _).
  rewrite log_this, log_heap, Hh, Hmgr. cbn. by rewrite Hh, Hm.
Qed.

(** After [load] on an instance without active timer, the one timer
    that can be active is the one the instance holds. *)
Lemma load_timer_held m w t :
  timers w = ∅ -> t ∈ timers (load m w) -> interval (this (load m w)) = Some t.
Proof.
  intros Hnone.
  destruct (load_before_patch m w)
    as (w2 & -> & _ & _ & _ & _ & _ & _ & _ & _ & Ht).
  rewrite log_timers, log_this.
  assert (Hsame : forall w3,
            w3 = match heap w2 !! m with
                 | Some mgr =>
                     set_heap
                       <[m := mkManager (nodes mgr) PatchedCreate PatchedUpdateVoiceState]>
                       (set_this (set_originals (Bound (create mgr) m)
                                    (Bound (updateVoiceState mgr) m)) w2)
                 | None => w2
                 end ->
            interval (this w3) = interval (this w2) /\ timers w3 = timers w2).
  { intros w3 ->. by destruct (heap w2 !! m). }
  destruct (Hsame _ eq_refl) as (-> & ->).
  rewrite Hnone in Ht.
  destruct (refreshIntervalMs (options (this w))) as [ms |];
    [destruct (0 <? ms)%Z |]; destruct Ht as [Hi ->];
    rewrite ?elem_of_union, ?elem_of_singleton, ?elem_of_empty;
    [intros [-> | []]; exact Hi | done | done].
Qed.
End Load.

Section Orderly.
Implicit Types (w : World) (m : ref) (b : bool).

Lemma load_well_wired m w mgr :
  timers w = ∅ -> host_owned (heap w) -> heap w !! m = Some mgr ->
  well_wired true (load m w).
Proof.
  intros Hnone Hhost Hmgr.
  destruct (load_patches m w mgr Hmgr) as (Hh & Hm & Hc & Hu).
  destruct (Hhost m mgr Hmgr) as [Hic Hiu].
  split; [| split].
  - exists m, (mkManager (nodes mgr) PatchedCreate PatchedUpdateVoiceState),
      (Bound (create mgr) m), (Bound (updateVoiceState mgr) m).
    rewrite Hh, lookup_insert_eq. by repeat split.
  - intros t Ht. split; [done |]. by apply load_timer_held.
  - intros m' mgr'. rewrite Hh, lookup_insert.
    destruct (decide (m = m')) as [<- | Hne].
    + intros _. by right.
    + intros Hm'. left. by apply (Hhost m').
Qed.

(** Between two loads the instance has no active timer and no
    manager has an interceptor. *)
Lemma well_wired_unloaded w :
  well_wired false w -> timers w = ∅ /\ host_owned (heap w).
Proof.
  intros (_ & Htimers & Hheap). split.
  - apply set_eq. intros t. rewrite elem_of_empty. split; [| done].
    intros Ht. by destruct (Htimers t Ht).
  - intros m mgr Hmgr. by destruct (Hheap m mgr Hmgr) as [? | [? _]].
Qed.

Lemma unload_well_wired b w m0 : well_wired b w -> well_wired false (unload m0 w).
Proof.
  intros ((m & mgr & c & u & Hm & Hmgr & Hc & Hu & Hic & Hiu) & Htimers & Hheap).
  pose proof (unload_heap m0 w m mgr c u Hm Hmgr Hc Hu) as Hh.
  split; [| split].
  - exists m, (mkManager (nodes mgr) c u), c, u.
    rewrite unload_this, Hh, lookup_insert_eq. by repeat split.
  - intros t. rewrite unload_timers. intros Ht. exfalso.
    destruct (interval (this w)) as [t0 |] eqn:Hi.
    + apply elem_of_difference in Ht as [Ht Hne].
      destruct (Htimers t Ht) as [_ [= ->]]. apply Hne. by apply elem_of_singleton.
    + by destruct (Htimers t Ht).
  - intros m' mgr'. rewrite Hh, lookup_insert.
    destruct (decide (m = m')) as [<- | Hne].
    + intros [= <-]. by left.
    + intros Hm'. destruct (Hheap m' mgr' Hm') as [? | [_ Hheld]]; [by left |].
      congruence.
Qed.

Lemma activity_well_wired b w w' :
  well_wired b w -> activity w w' -> well_wired b w'.
Proof.
  intros ((m & mgr & c & u & Hm & Hmgr & Hc & Hu & Hic & Hiu) & Htimers & Hheap)
    [Hsame | (m1 & ns & ->)]%activity_same_wiring.
  - destruct Hsame as (Hh & Ht & _ & _ & Hm' & Hi & Hc' & Hu').
    split; [| split].
    + exists m, mgr, c, u. rewrite Hh, Hm', Hc', Hu'. by repeat split.
    + intros t. rewrite Ht, Hi. apply Htimers.
    + intros m2 mgr2. rewrite Hh, Hm'. apply Hheap.
  - split; [| split].
    + cbn. destruct (decide (m1 = m)) as [-> | Hne].
      * exists m, (mkManager ns (create mgr) (updateVoiceState mgr)), c, u.
        rewrite lookup_alter, decide_True by done. rewrite Hmgr. by repeat split.
      * exists m, mgr, c, u.
        rewrite lookup_alter, decide_False by done. by repeat split.
    + apply Htimers.
    + intros m2 mgr2. cbn. rewrite lookup_alter.
      destruct (decide (m1 = m2)) as [<- | Hne]; [| apply Hheap].
      destruct (heap w !! m1) as [mgr1 |] eqn:Hm1; [| done].
      intros [= <-]. cbn. by apply (Hheap m1).
Qed.

Lemma orderly_well_wired b w : orderly b w -> well_wired b w.
Proof.
  induction 1 as [o h m [mgr Hmgr] Hhost | b w m _ IH | w m _ IH [mgr Hmgr]
                  | b w w' _ IH Hact].
  - by apply (load_well_wired m (initial o h) mgr).
  - by apply (unload_well_wired b).
  - destruct (well_wired_unloaded w IH) as [Hnone Hhost].
    by apply (load_well_wired m w mgr).
  - by apply (activity_well_wired b w).
Qed.

(** An orderly life is one of the lives a loaded instance can have. *)
Lemma orderly_reachable b w : orderly b w -> reachable_after_load w.
Proof.
  induction 1 as [o h m Hm Hhost | b w m _ IH | w m _ IH Hm | b w w' _ IH Hact].
  - exists o, h, m. by split.
  - destruct IH as (o & h & m1 & Hm1 & Hsteps). exists o, h, m1. split; [done |].
    eapply rtc_r; [done | apply step_unload].
  - destruct IH as (o & h & m1 & Hm1 & Hsteps). exists o, h, m1. split; [done |].
    eapply rtc_r; [done | by apply step_load].
  - destruct IH as (o & h & m1 & Hm1 & Hsteps). exists o, h, m1. split; [done |].
    eapply rtc_r; [done | by apply step_activity].
Qed.

Lemma host_heap_owned : host_owned Examples.host_heap.
Proof.
  intros m mgr. unfold Examples.host_heap.
  intros [_ <-]%lookup_singleton_Some. by split.
Qed.

Lemma just_loaded_orderly o : orderly true (Examples.just_loaded o).
Proof. apply orderly_first; [by eexists | apply host_heap_owned]. Qed.

(** C8, as amended. In every state of an instance whose host calls
    [load] only on a new or an unloaded instance, [unload] leaves no
    refresh timer active and puts back into the manager the two
    functions that [load] captured before it patched them, none of
    them an interceptor, so that no manager is left with an
    interceptor; the nodes of the manager, every other manager, the
    detached work and all fields of the instance stay as they were,
    so the [nodeGeo], [guildGeo] and [selfGeo] caches keep exactly
    their entries (the console gets the two debug lines when [debug]
    is set). *)
Theorem unload_restores_entry_points b w m0 :
  orderly b w ->
  exists m mgr c u,
    manager (this w) = Some m /\ heap w !! m = Some mgr /\
    originalCreate (this w) = Some c /\
    originalUpdateVoiceState (this w) = Some u /\
    is_interceptor c = false /\ is_interceptor u = false /\
    heap (unload m0 w) = <[m := mkManager (nodes mgr) c u]> (heap w) /\
    host_owned (heap (unload m0 w)) /\
    timers (unload m0 w) = ∅ /\
    nodeGeo (this (unload m0 w)) = nodeGeo (this w) /\
    guildGeo (this (unload m0 w)) = guildGeo (this w) /\
    selfGeo (this (unload m0 w)) = selfGeo (this w) /\
    this (unload m0 w) = this w /\
    next_timer (unload m0 w) = next_timer w /\
    pending (unload m0 w) = pending w /\
    console (unload m0 w)
      = console w ++
        (if debug (options (this w))
         then [Text "Unloading MagmaConnect plugin"; Text "MagmaConnect plugin unloaded"]
         else []).
Proof.
  intros Hwired%orderly_well_wired.
  destruct (well_wired_unloaded _ (unload_well_wired b w m0 Hwired)) as [Hnone Hhost].
  destruct Hwired as ((m & mgr & c & u & Hm & Hmgr & Hc & Hu & Hic & Hiu) & _).
  exists m, mgr, c, u. do 6 (split; [done |]).
  split; [by apply unload_heap |]. split; [done |]. split; [done |].
  by rewrite unload_this, unload_console, unload_next_timer, unload_pending.
Qed.

Lemma unload_restores_entry_points_witness :
  orderly true (Examples.just_loaded Examples.refreshing) /\
  heap (unload 0 (Examples.just_loaded Examples.refreshing)) !! 0
    = Some (mkManager [Examples.node_a; Examples.node_b]
              (Bound (HostFunction "create") 0)
              (Bound (HostFunction "updateVoiceState") 0)) /\
  timers (Examples.just_loaded Examples.refreshing) = {[0]} /\
  timers (unload 0 (Examples.just_loaded Examples.refreshing)) = ∅.
Proof.
  pose proof (just_loaded_orderly Examples.refreshing) as Hr.
  split; [exact Hr |].
  destruct (unload_restores_entry_points _ _ 0 Hr)
    as (m & mgr & c & u & Hm & Hh & Hc & Hu & _ & _ & Hheap & _ & Htimers & _).
  rewrite Hheap, Htimers.
  injection Hm as <-. injection Hc as <-. injection Hu as <-.
  rewrite lookup_insert_eq.
  assert (Hn : heap (Examples.just_loaded Examples.refreshing) !! 0
               = Some (mkManager [Examples.node_a; Examples.node_b]
                         PatchedCreate PatchedUpdateVoiceState))
    by reflexivity.
  assert (Some mgr = Some (mkManager [Examples.node_a; Examples.node_b]
                             PatchedCreate PatchedUpdateVoiceState)) as [= ->]
    by exact (eq_trans (eq_sym Hh) Hn).
  split; [done |]. split; [| done].
  apply (bool_decide_unpack _). by vm_compute.
Defined.

(** C8 as stated fails. A [load] that follows another one without an
    [unload] in between is reached after [load]; it overwrites
    [this.interval] and captures the interceptors of the first
    [load], and [unload] then leaves the timer of the first [load]
    running and writes the interceptors, bound to the manager, into
    the manager. *)
Lemma unload_after_second_load :
  reachable_after_load (load 0 (Examples.just_loaded Examples.refreshing)) /\
  timers (unload 0 (load 0 (Examples.just_loaded Examples.refreshing))) = {[0]} /\
  heap (unload 0 (load 0 (Examples.just_loaded Examples.refreshing))) !! 0
    = Some (mkManager [Examples.node_a; Examples.node_b]
              (Bound PatchedCreate 0) (Bound PatchedUpdateVoiceState 0)) /\
  ~ host_owned (heap (unload 0 (load 0 (Examples.just_loaded Examples.refreshing)))).
Proof.
  assert (Hheap : heap (unload 0 (load 0 (Examples.just_loaded Examples.refreshing))) !! 0
                  = Some (mkManager [Examples.node_a; Examples.node_b]
                            (Bound PatchedCreate 0) (Bound PatchedUpdateVoiceState 0))).
  { rewrite (unload_heap 0 _ 0
               (mkManager [Examples.node_a; Examples.node_b]
                  PatchedCreate PatchedUpdateVoiceState)
               (Bound PatchedCreate 0) (Bound PatchedUpdateVoiceState 0));
      [apply lookup_insert_eq | reflexivity ..]. }
  split; [| split; [| split; [exact Hheap |]]].
  - exists Examples.refreshing, Examples.host_heap, 0. split; [by eexists |].
    apply rtc_once. apply step_load. by eexists.
  - rewrite unload_timers.
    replace (interval (this (load 0 (Examples.just_loaded Examples.refreshing))))
      with (Some 1) by reflexivity.
    assert (Ht : timers (load 0 (Examples.just_loaded Examples.refreshing)) = {[1; 0]})
      by (apply (bool_decide_unpack _); by vm_compute).
    rewrite Ht. apply set_eq. intros x.
    rewrite elem_of_difference, elem_of_union, !elem_of_singleton. lia.
  - intros Hhost. by destruct (Hhost 0 _ Hheap).
Qed.
End Orderly.

(** ** More on the great-circle distance *)

Section HaversineMore.
Import Geo.
#[local] Open Scope R_scope.

Lemma hav_sym a b : hav a b = hav b a.
Proof.
  unfold hav. cbv zeta.
  replace (toRad (lat a - lat b) / 2) with (- (toRad (lat b - lat a) / 2))
    by (unfold toRad; field).
  replace (toRad (lon a - lon b) / 2) with (- (toRad (lon b - lon a) / 2))
    by (unfold toRad; field).
  rewrite !sin_neg. ring.
Qed.

(** X1. The distance does not depend on the order of its two
    arguments. *)
Theorem haversineKm_sym a b : haversineKm a b = haversineKm b a.
Proof. unfold haversineKm. by rewrite hav_sym. Qed.

(** X2. Between valid coordinates the distance is finite and lies
    between 0 and half the circumference of the sphere, [PI * 6371]
    km. *)
Theorem haversineKm_bounds a b :
  valid_coordinate a -> valid_coordinate b ->
  0 <= haversineKm a b <= PI * R_km.
Proof.
  intros _ _. unfold haversineKm, R_km.
  pose proof (Rmin_1_sqrt_range (hav a b)) as [Hlo Hhi].
  pose proof (asin_bound (Rmin 1 (sqrt (hav a b)))) as [_ Hup].
  assert (Hge : 0 <= asin (Rmin 1 (sqrt (hav a b)))).
  { pose proof (asin_bound (Rmin 1 (sqrt (hav a b)))) as [Hdown _].
    pose proof PI_RGT_0 as Hpi.
    destruct (Rle_lt_dec 0 (asin (Rmin 1 (sqrt (hav a b))))) as [Hle | Hlt]; [done |].
    assert (Hs : sin (asin (Rmin 1 (sqrt (hav a b)))) < 0)
      by (apply sin_lt_0_var; lra).
    rewrite sin_asin in Hs; lra. }
  lra.
Qed.

Lemma haversineKm_bounds_witness :
  0 <= haversineKm (mkLatLon 0 1) (mkLatLon 0 90) <= PI * R_km.
Proof.
  apply haversineKm_bounds; unfold valid_coordinate; cbn; lra.
Defined.
End HaversineMore.

Section HaversineArcs.
Import Geo.
#[local] Open Scope R_scope.

(** X24. Between two points of the equator whose longitudes differ by
    at most 180 degrees, the distance is the length of the arc
    between them, [6371 * |difference| * PI / 180]. *)
Theorem haversineKm_equator_arc x y :
  Rabs (y - x) <= 180 ->
  haversineKm (mkLatLon 0 x) (mkLatLon 0 y) = R_km * (Rabs (y - x) * PI / 180).
Proof. intros H. by rewrite haversineKm_equator. Qed.

Lemma haversineKm_equator_arc_witness :
  haversineKm (mkLatLon 0 0) (mkLatLon 0 180) = R_km * (180 * PI / 180).
Proof.
  assert (H : Rabs (180 - 0) = 180) by (rewrite Rabs_pos_eq; lra).
  rewrite haversineKm_equator_arc by lra. by rewrite H.
Defined.

(** X25. Between two points of one meridian with valid latitudes, the
    distance is the length of the arc between them,
    [6371 * |difference of the latitudes| * PI / 180]. *)
Theorem haversineKm_meridian_arc x y l :
  -90 <= x <= 90 -> -90 <= y <= 90 ->
  haversineKm (mkLatLon x l) (mkLatLon y l) = R_km * (Rabs (y - x) * PI / 180).
Proof.
  intros Hx Hy. pose proof PI_RGT_0 as Hpi.
  unfold haversineKm, hav. cbn [lat lon].
  replace (toRad (l - l) / 2) with 0 by (unfold toRad; field).
  rewrite sin_0.
  set (u := toRad (y - x) / 2).
  replace (sin u * sin u + cos (toRad x) * cos (toRad y) * 0 * 0)
    with (Rsqr (sin u)) by (unfold Rsqr; ring).
  rewrite sqrt_Rsqr_abs.
  assert (Hu : Rabs u = Rabs (y - x) * PI / 180 / 2).
  { subst u. unfold toRad, Rabs.
    destruct (Rcase_abs (y - x)), (Rcase_abs ((y - x) * PI / 180 / 2)); nra. }
  assert (Hd : Rabs (y - x) <= 180).
  { unfold Rabs. destruct (Rcase_abs (y - x)); lra. }
  assert (Hq : 0 <= Rabs u <= PI / 2).
  { split; [apply Rabs_pos |]. rewrite Hu.
    pose proof (Rabs_pos (y - x)).
    assert (Rabs (y - x) * PI <= 180 * PI) by (apply Rmult_le_compat_r; lra).
    lra. }
  rewrite sin_Rabs_quarter by lra.
  rewrite Rmin_right by (pose proof (SIN_bound (Rabs u)); lra).
  rewrite asin_sin by lra. rewrite Hu. lra.
Qed.

Lemma haversineKm_meridian_arc_witness :
  haversineKm (mkLatLon (-90) 8.68) (mkLatLon 90 8.68) = R_km * (180 * PI / 180).
Proof.
  assert (H : Rabs (90 - -90) = 180) by (rewrite Rabs_pos_eq; lra).
  rewrite haversineKm_meridian_arc by lra. by rewrite H.
Defined.
End HaversineArcs.

(** ** More on selection *)

Section SelectionMore.
Implicit Types (w : World) (ns : list NodeOptions) (geo : gmap string LatLon).








End SelectionMore.

Section SelectionWork.
Implicit Types (w : World) (ns : list NodeOptions).

Lemma resolve_missing_started ns w :
  snd (resolve_missing ns w) = missing_lookups w ns.
Proof.
  unfold missing_lookups.
  induction ns as [| n ns IH]; [done |].
  cbn [resolve_missing]. rewrite !snd_bind, IH, filter_cons. cbn [read snd fst app].
  destruct (decide (is_Some (nodeGeo (this w) !! node_key n))) as [Hs | Hs].
  - rewrite bool_decide_eq_true_2 by done.
    rewrite decide_False by (intros Hn; by apply Hn). done.
  - rewrite bool_decide_eq_false_2 by done. by rewrite decide_True by done.
Qed.

Lemma pickBestNodeIdentifier_started w m getTarget :
  the_manager w = Some m ->
  nodes m ≠ [] ->
  snd (pickBestNodeIdentifier getTarget w)
    = snd (getTarget w) ++
      match selection_target getTarget w with
      | Some _ => missing_lookups w (nodes m)
      | None => [GetSelfLocation]
      end.
Proof.
  intros Hm Hne. unfold pickBestNodeIdentifier, selection_target.
  rewrite snd_bind. cbn [read fst snd app]. rewrite Hm.
  destruct (nodes m) as [| first rest] eqn:Hns; [done |].
  rewrite snd_bind. f_equal.
  destruct (resolveSyncOrAsync (getTarget w).1) as [t |].
  - rewrite snd_bind. cbn [ret fst snd app].
    rewrite !snd_bind, resolve_missing_started. cbn [read fst snd].
    destruct (foldl _ _ _) as [[id d] |]; cbn; by rewrite app_nil_r.
  - rewrite snd_bind, getSelfLocationCached_value.
    unfold getSelfLocationCached at 1. rewrite snd_bind. cbn [read fst snd app].
    destruct (selfGeo (this w)) as [loc |] eqn:Hself.
    + cbn [ret snd app].
      rewrite !snd_bind, resolve_missing_started. cbn [read fst snd].
      destruct (foldl _ _ _) as [[id d] |]; cbn; by rewrite app_nil_r.
    + rewrite snd_bind. cbn. done.
Qed.

(** X5. On a non-empty pool the work that [pickBestNodeIdentifier]
    starts, after what the target closure itself started, is: one
    lookup for every pool node whose key has no cached coordinate, in
    pool order, when a target coordinate is there; the self lookup and
    nothing else when there is none. *)
Theorem select_starts_missing_lookups w m getTarget :
  the_manager w = Some m ->
  nodes m ≠ [] ->
  snd (pickBestNodeIdentifier getTarget w)
    = snd (getTarget w) ++
      match selection_target getTarget w with
      | Some _ => missing_lookups w (nodes m)
      | None => [GetSelfLocation]
      end.
Proof. apply pickBestNodeIdentifier_started. Qed.

Lemma select_starts_missing_lookups_witness :
  snd (pickBestNodeIdentifier (target_of "g") Examples.half_cached_world)
    = [ResolveNodeLocation "b" Examples.node_b].
Proof.
  rewrite (select_starts_missing_lookups Examples.half_cached_world
             (mkManager [Examples.node_a; Examples.node_b]
                PatchedCreate PatchedUpdateVoiceState)).
  - reflexivity.
  - reflexivity.
  - done.
Defined.

(** X6. With no manager or an empty pool the patched [create] hands
    the caller's options on as they are and starts no work. *)
Theorem patched_options_empty_pool w opts :
  (forall m, the_manager w = Some m -> nodes m = []) ->
  patched_options opts w = (opts, []).
Proof.
  intros Hempty. unfold patched_options.
  destruct (pinned opts); [done |]. cbn [negb].
  unfold bind at 1.
  assert (Hpick : pickBestNodeIdentifier (target_of (guildId opts)) w = (None, [])).
  { unfold pickBestNodeIdentifier, bind at 1, read.
    destruct (the_manager w) as [m |] eqn:Hm; [| done].
    by rewrite (Hempty m eq_refl). }
  by rewrite Hpick.
Qed.

Lemma patched_options_empty_pool_witness :
  patched_options (Examples.player "g" None) (initial Examples.no_options ∅)
    = (Examples.player "g" None, []).
Proof. apply patched_options_empty_pool. intros m Hm. discriminate Hm. Defined.
End SelectionWork.

(** ** Region codes and region hints *)

Section Regions.
Implicit Types (region : string) (ll : LatLon).

Lemma lower_ascii_idemp c : Str.lower_ascii (Str.lower_ascii c) = Str.lower_ascii c.
Proof. destruct c as [[] [] [] [] [] [] [] []]; reflexivity. Qed.

Lemma toLowerCase_idemp s : Str.toLowerCase (Str.toLowerCase s) = Str.toLowerCase s.
Proof.
  induction s as [| c s IH]; cbn; [done |]. by rewrite lower_ascii_idemp, IH.
Qed.

(** X7. The table is looked up without regard to the case of ASCII
    letters: a region code and its lower-case form give the same
    answer. *)
Theorem regionToLatLon_lower_case region :
  regionToLatLon (Str.toLowerCase region) = regionToLatLon region.
Proof. unfold regionToLatLon. by rewrite toLowerCase_idemp. Qed.

Lemma assoc_In {V} key (l : list (string * V)) v :
  assoc key l = Some v -> (key, v) ∈ l.
Proof.
  induction l as [| [k x] l IH]; cbn; [done |].
  destruct (String.eqb_spec key k) as [-> | _].
  - intros [= ->]. left.
  - intros H. right. by apply IH.
Qed.

Lemma region_table_valid :
  Forall (fun entry => valid_coordinate (snd entry)) region_table.
Proof.
  unfold region_table.
  repeat (apply Forall_cons; split; [unfold valid_coordinate; cbn; lra |]).
  apply Forall_nil_2.
Qed.

(** The members of [Object.prototype] with a name that is its own
    lower-case form. *)
Lemma lower_case_members key :
  key ∈ object_prototype_members -> Str.toLowerCase key = key ->
  key = "constructor" \/ key = "__proto__".
Proof.
  unfold object_prototype_members. intros Hin Hlow.
  repeat (apply elem_of_cons in Hin as [-> | Hin];
          [first [by left | by right | discriminate Hlow] |]).
  by apply elem_of_nil in Hin.
Qed.

(** What [regionToLatLon] gives is a coordinate of the table, within
    the declared ranges, or the inherited member that the lower-case
    form of the region code names: [constructor] or [__proto__]. *)
Lemma region_value_shape region v :
  regionToLatLon region = Some v ->
  match v with
  | Own ll => (Str.toLowerCase region, ll) ∈ region_table /\ valid_coordinate ll
  | Inherited name =>
      name = Str.toLowerCase region /\ (name = "constructor" \/ name = "__proto__")
  end.
Proof.
  unfold regionToLatLon, property. cbv zeta.
  destruct (assoc _ region_table) as [ll |] eqn:Hll.
  - intros [= <-]. apply assoc_In in Hll. split; [done |].
    pose proof region_table_valid as Hall. rewrite Forall_forall in Hall.
    exact (Hall _ Hll).
  - case_bool_decide as Hin; [| done]. intros [= <-]. split; [done |].
    apply lower_case_members; [done | apply toLowerCase_idemp].
Qed.

Lemma region_coordinate_valid region ll :
  regionToLatLon region = Some (Own ll) -> valid_coordinate ll.
Proof. intros H. by destruct (region_value_shape region _ H). Qed.

(** X8. Every coordinate [regionToLatLon] returns is within the
    declared ranges of latitude and longitude; the one other thing it
    returns is an inherited member of the table object, for the region
    codes whose lower-case form is [constructor] or [__proto__]. *)
Theorem regionToLatLon_valid region v :
  regionToLatLon region = Some v ->
  match v with
  | Own ll => valid_coordinate ll
  | Inherited name =>
      name = Str.toLowerCase region /\ (name = "constructor" \/ name = "__proto__")
  end.
Proof.
  intros H. pose proof (region_value_shape region v H) as Hshape.
  destruct v as [ll | name]; [by destruct Hshape | done].
Qed.

Lemma regionToLatLon_valid_witness :
  valid_coordinate (mkLatLon 50.11 8.68).
Proof.
  apply (regionToLatLon_valid "Frankfurt" (Own (mkLatLon 50.11 8.68))). reflexivity.
Defined.

(** A region code that names an inherited member gets that member. *)
Lemma regionToLatLon_constructor :
  regionToLatLon "Constructor" = Some (Inherited "constructor").
Proof. reflexivity. Qed.
End Regions.

Section ParserShape.
Import ParserSpec.
Implicit Types (l : list ascii) (sep c : ascii).

Lemma take_until_prefix sep l : take_until sep l `prefix_of` l.
Proof.
  induction l as [| c l IH]; cbn; [done |].
  destruct (Ascii.eqb c sep); [apply prefix_nil | by apply prefix_cons].
Qed.

Lemma take_until_no_sep sep l : sep ∉ take_until sep l.
Proof.
  induction l as [| c l IH]; cbn; [apply not_elem_of_nil |].
  destruct (Ascii.eqb_spec c sep) as [-> | Hne]; [apply not_elem_of_nil |].
  apply not_elem_of_cons. split; [congruence | done].
Qed.

Lemma drop_while_suffix {A} (p : A -> bool) (l : list A) :
  drop_while p l `suffix_of` l.
Proof.
  induction l as [| x l IH]; cbn; [done |].
  destruct (p x); [by apply suffix_cons_r | done].
Qed.

Lemma drop_while_head {A} (p : A -> bool) (l : list A) x :
  head (drop_while p l) = Some x -> p x = false.
Proof.
  induction l as [| y l IH]; cbn; [done |].
  destruct (p y) eqn:Hy; [done |]. cbn. by intros [= <-].
Qed.

Lemma strip_trailing_digits_prefix l : strip_trailing_digits l `prefix_of` l.
Proof.
  unfold strip_trailing_digits.
  destruct (drop_while_suffix Str.is_digit (rev l)) as [k Hk].
  exists (rev k). rewrite <- rev_app_distr, <- Hk. by rewrite rev_involutive.
Qed.

Lemma strip_trailing_digits_last l c :
  last (strip_trailing_digits l) = Some c -> Str.is_digit c = false.
Proof.
  unfold strip_trailing_digits. intros Hlast. apply (drop_while_head _ (rev l)).
  destruct (drop_while Str.is_digit (rev l)) as [| x k]; [done |].
  cbn [rev] in Hlast. rewrite last_snoc in Hlast. done.
Qed.

Lemma not_elem_of_prefix {A} (x : A) (l1 l2 : list A) :
  l1 `prefix_of` l2 -> x ∉ l2 -> x ∉ l1.
Proof. intros [k ->] Hnot Hin. apply Hnot. apply elem_of_app. by left. Qed.

Lemma of_chars_app l1 l2 :
  String.string_of_list_ascii (l1 ++ l2)
    = String.string_of_list_ascii l1 +:+ String.string_of_list_ascii l2.
Proof.
  induction l1 as [| c l1 IH]; [done |].
  cbn [app String.string_of_list_ascii]. rewrite IH. done.
Qed.

(** X9. A region code the parser returns is never empty, does not end
    in a digit, holds neither a dot nor a colon, and is the beginning
    of the endpoint it was parsed from. *)
Theorem parseDiscordRegionFromEndpoint_shape endpoint region :
  parseDiscordRegionFromEndpoint endpoint = Some region ->
  region ≠ EmptyString
  /\ (exists rest, endpoint = region +:+ rest)
  /\ ("."%char ∉ String.list_ascii_of_string region)
  /\ (":"%char ∉ String.list_ascii_of_string region)
  /\ forall c, last (String.list_ascii_of_string region) = Some c ->
       Str.is_digit c = false.
Proof.
  unfold parseDiscordRegionFromEndpoint.
  destruct (length _ <? 3)%nat; [done |].
  rewrite !hd_split, replace_trailing_digits_strip,
    !String.list_ascii_of_string_of_list_ascii.
  set (cs := String.list_ascii_of_string endpoint).
  set (host := take_until ":" cs). set (first := take_until "." host).
  destruct (Str.truthy _) eqn:Htruthy; [| done]. intros [= <-].
  rewrite String.list_ascii_of_string_of_list_ascii.
  assert (Hpre : strip_trailing_digits first `prefix_of` cs).
  { etrans; [apply strip_trailing_digits_prefix |].
    etrans; apply take_until_prefix. }
  split; [by intros Heq; rewrite Heq in Htruthy |].
  split.
  { destruct Hpre as [k Hk]. exists (String.string_of_list_ascii k).
    rewrite <- of_chars_app, <- Hk. subst cs.
    by rewrite String.string_of_list_ascii_of_string. }
  split.
  { eapply not_elem_of_prefix; [apply strip_trailing_digits_prefix |].
    apply take_until_no_sep. }
  split; [| apply strip_trailing_digits_last].
  eapply not_elem_of_prefix;
    [etrans; [apply strip_trailing_digits_prefix | apply take_until_prefix] |].
  apply take_until_no_sep.
Qed.

Lemma parseDiscordRegionFromEndpoint_shape_witness :
  exists rest, "hongkong77.discord.media:443" = "hongkong" +:+ rest.
Proof.
  destruct (parseDiscordRegionFromEndpoint_shape
              "hongkong77.discord.media:443" "hongkong") as (_ & Hrest & _).
  - reflexivity.
  - exact Hrest.
Defined.
End ParserShape.

(** ** What the stateful operations leave alone *)

Section CacheFrames.
Implicit Types (w : World) (m : ref).

Lemma nodeGeo_set_frame id ll w w' :
  nodeGeo_set id ll w = Some w' ->
  guildGeo (this w') = guildGeo (this w)
  /\ selfGeo (this w') = selfGeo (this w)
  /\ pending w' = pending w
  /\ console w' = console w.
Proof.
  unfold nodeGeo_set. destruct ll as [[ll | name] |]; [| done |]; by intros [= <-].
Qed.

Lemma nodeGeo_set_resolved_frame id p w w' :
  nodeGeo_set_resolved id p w = Some w' ->
  guildGeo (this w') = guildGeo (this w)
  /\ selfGeo (this w') = selfGeo (this w)
  /\ pending w' = pending w
  /\ console w' = console w.
Proof.
  unfold nodeGeo_set_resolved. destruct p as [ll | e |];
    [apply nodeGeo_set_frame | by intros [= <-] ..].
Qed.

Lemma refresh_nodes_frame ns w w' :
  refresh_nodes ns w = Some w' ->
  guildGeo (this w') = guildGeo (this w)
  /\ selfGeo (this w') = selfGeo (this w).
Proof.
  revert w. induction ns as [| n ns IH]; intros w; cbn [refresh_nodes];
    [by intros [= <-] |].
  destruct (nodeLocations_get _ _) as [override |].
  - destruct (normalizeLoc override) as [ll | e |].
    + destruct (nodeGeo_set (node_key n) ll w) as [w1 |] eqn:Hset; [| done].
      intros (-> & ->)%IH.
      by destruct (nodeGeo_set_frame _ _ _ _ Hset) as (-> & -> & _).
    + intros [= <-]. by rewrite log_this.
    + by intros [= <-].
  - by intros (-> & ->)%IH.
Qed.

Lemma run_task_guildGeo net t w w' :
  run_task net t w = Some w' -> guildGeo (this w') = guildGeo (this w).
Proof.
  destruct t as [| id node |]; cbn [run_task].
  - destruct (the_manager w); [by intros [-> _]%refresh_nodes_frame | by intros [= <-]].
  - by intros [-> _]%nodeGeo_set_resolved_frame.
  - destruct (GeoLookup.getSelfLocation net); by intros [= <-].
Qed.
End CacheFrames.

Section RegionHints.
Implicit Types (w : World) (data : json) (g : string).

Lemma parseDiscordRegionFromEndpoint_nonempty endpoint region :
  parseDiscordRegionFromEndpoint endpoint = Some region ->
  Str.truthy endpoint = true.
Proof. by destruct endpoint. Qed.

Lemma patchedUpdateVoiceState_cached w data guild_id endpoint region v :
  extractVoiceServerUpdate data = Some (Some guild_id, endpoint) ->
  truthy guild_id = true ->
  parseDiscordRegionFromEndpoint endpoint = Some region ->
  regionToLatLon region = Some v ->
  this (patchedUpdateVoiceState data w) = guildGeo_set guild_id v (this w).
Proof.
  intros Hx Hg Hparse Hregion. unfold patchedUpdateVoiceState.
  rewrite Hx, Hg, (parseDiscordRegionFromEndpoint_nonempty _ _ Hparse).
  cbn [andb]. rewrite Hparse, Hregion.
  destruct v as [ll | name]; [by rewrite log_this | done].
Qed.

(** X10. A voice-state payload from which a non-empty guild id and an
    endpoint with a known region are extracted makes the patched
    [updateVoiceState] write the coordinate of that region into the
    guild cache under the guild id, replacing what was there, and
    [getTargetForGuild] then resolves the guild to that coordinate. *)
Theorem updateVoiceState_caches_region w data g endpoint region ll :
  extractVoiceServerUpdate data = Some (Some (JString g), endpoint) ->
  g ≠ EmptyString ->
  parseDiscordRegionFromEndpoint endpoint = Some region ->
  regionToLatLon region = Some (Own ll) ->
  guildGeo (this (patchedUpdateVoiceState data w)) = <[g := Own ll]> (guildGeo (this w))
  /\ getTargetForGuild g (patchedUpdateVoiceState data w)
     = (Fulfilled (Some (Own ll)), []).
Proof.
  intros Hx Hg Hparse Hregion.
  assert (Hgeo : guildGeo (this (patchedUpdateVoiceState data w))
                 = <[g := Own ll]> (guildGeo (this w))).
  { rewrite (patchedUpdateVoiceState_cached w data (JString g) endpoint region (Own ll));
      try done. by destruct g. }
  split; [done |].
  apply getTargetForGuild_cached. by rewrite Hgeo, lookup_insert_eq.
Qed.

Lemma updateVoiceState_caches_region_witness :
  getTargetForGuild "g"
    (patchedUpdateVoiceState
       (Examples.voice_server_update "g" "us-east123.discord.media:443")
       Examples.cold_world)
    = (Fulfilled (Some (Own (mkLatLon 39 (-77)))), []).
Proof.
  apply (updateVoiceState_caches_region _ _ "g" "us-east123.discord.media:443" "us-east");
    [reflexivity | done | reflexivity | reflexivity].
Defined.

Lemma patchedUpdateVoiceState_this w data :
  nodeGeo (this (patchedUpdateVoiceState data w)) = nodeGeo (this w)
  /\ selfGeo (this (patchedUpdateVoiceState data w)) = selfGeo (this w)
  /\ options (this (patchedUpdateVoiceState data w)) = options (this w)
  /\ manager (this (patchedUpdateVoiceState data w)) = manager (this w)
  /\ interval (this (patchedUpdateVoiceState data w)) = interval (this w)
  /\ heap (patchedUpdateVoiceState data w) = heap w
  /\ timers (patchedUpdateVoiceState data w) = timers w
  /\ pending (patchedUpdateVoiceState data w) = pending w.
Proof.
  unfold patchedUpdateVoiceState.
  destruct (extractVoiceServerUpdate data) as [[[guild_id |] endpoint] |]; try done.
  destruct (truthy guild_id && Str.truthy endpoint); [| done].
  destruct (parseDiscordRegionFromEndpoint endpoint) as [region |]; [| done].
  destruct (regionToLatLon region) as [[ll | name] |]; [| | done];
    rewrite ?log_this, ?log_heap, ?log_timers, ?log_pending;
    unfold guildGeo_set; by destruct guild_id.
Qed.

Lemma patchedUpdateVoiceState_guildGeo w data g :
  guildGeo (this (patchedUpdateVoiceState data w)) !! g = guildGeo (this w) !! g
  \/ exists region v,
       regionToLatLon region = Some v /\
       guildGeo (this (patchedUpdateVoiceState data w)) !! g = Some v.
Proof.
  unfold patchedUpdateVoiceState.
  destruct (extractVoiceServerUpdate data) as [[[guild_id |] endpoint] |];
    try by left.
  destruct (truthy guild_id && Str.truthy endpoint); [| by left].
  destruct (parseDiscordRegionFromEndpoint endpoint) as [region |]; [| by left].
  destruct (regionToLatLon region) as [latlon |] eqn:Hregion; [| by left].
  assert (Hthis : this match latlon with
                       | Own ll =>
                           log (CachedGuild guild_id region ll)
                             (set_this (guildGeo_set guild_id latlon) w)
                       | Inherited _ => set_this (guildGeo_set guild_id latlon) w
                       end
                  = guildGeo_set guild_id latlon (this w)).
  { destruct latlon; [by rewrite log_this | done]. }
  cbv zeta. rewrite Hthis. unfold guildGeo_set.
  destruct guild_id as [| b | x | s | items | fields]; try by left.
  destruct (decide (s = g)) as [-> | Hne].
  - right. exists region, latlon. split; [exact Hregion | apply lookup_insert_eq].
  - left. cbn. by rewrite lookup_insert_ne.
Qed.

(** X11. Whatever the payload, the patched [updateVoiceState] leaves
    the node cache, the self-location, the options, the manager and
    its entry points, the timers and the detached work as they were,
    and an entry of the guild cache either stays or becomes a value
    that [regionToLatLon] gives: a coordinate of the region table, or
    the inherited member for a region named [constructor] or
    [__proto__]. *)
Theorem updateVoiceState_frame w data :
  nodeGeo (this (patchedUpdateVoiceState data w)) = nodeGeo (this w)
  /\ selfGeo (this (patchedUpdateVoiceState data w)) = selfGeo (this w)
  /\ options (this (patchedUpdateVoiceState data w)) = options (this w)
  /\ manager (this (patchedUpdateVoiceState data w)) = manager (this w)
  /\ interval (this (patchedUpdateVoiceState data w)) = interval (this w)
  /\ heap (patchedUpdateVoiceState data w) = heap w
  /\ timers (patchedUpdateVoiceState data w) = timers w
  /\ pending (patchedUpdateVoiceState data w) = pending w
  /\ forall g,
       guildGeo (this (patchedUpdateVoiceState data w)) !! g = guildGeo (this w) !! g
       \/ exists region v,
            regionToLatLon region = Some v /\
            guildGeo (this (patchedUpdateVoiceState data w)) !! g = Some v /\
            match v with
            | Own ll => valid_coordinate ll
            | Inherited name => name = "constructor" \/ name = "__proto__"
            end.
Proof.
  destruct (patchedUpdateVoiceState_this w data)
    as (Hn & Hs & Ho & Hm & Hi & Hh & Ht & Hp).
  do 8 (split; [done |]). intros g.
  destruct (patchedUpdateVoiceState_guildGeo w data g)
    as [Hsame | (region & v & Hregion & Hv)]; [by left |].
  right. exists region, v. do 2 (split; [done |]).
  pose proof (region_value_shape region v Hregion) as Hshape.
  destruct v as [ll | name]; by destruct Hshape.
Qed.

(** The hint of a voice server named [constructor] puts an inherited
    member into the guild cache, and nothing into the console. *)
Lemma updateVoiceState_inherited_member :
  guildGeo
    (this (patchedUpdateVoiceState
             (Examples.voice_server_update "g" "constructor7.discord.media:443")
             (Examples.just_loaded Examples.refreshing))) !! "g"
    = Some (Inherited "constructor")
  /\ console (patchedUpdateVoiceState
                (Examples.voice_server_update "g" "constructor7.discord.media:443")
                (Examples.just_loaded Examples.refreshing))
     = console (Examples.just_loaded Examples.refreshing).
Proof. split; reflexivity. Qed.

Lemma guild_cache_from_table_step w w' :
  guild_cache_from_table w -> step w w' -> guild_cache_from_table w'.
Proof.
  intros Hinv [m Hm | m | w1 Hact] g v.
  - destruct (load_caches m w) as (_ & -> & _). apply Hinv.
  - rewrite unload_this. apply Hinv.
  - destruct Hact as [opts | data | m ns | t Ht | net before t after w1 Hp Hrun].
    + apply Hinv.
    + destruct (patchedUpdateVoiceState_guildGeo w data g)
        as [-> | (region & v' & Hr & ->)]; [apply Hinv |].
      intros [= <-]. by exists region.
    + apply Hinv.
    + apply Hinv.
    + rewrite (run_task_guildGeo _ _ _ _ Hrun). apply Hinv.
Qed.

(** X12. In every state reached after [load] of a new instance, each
    value of the guild cache is one that [regionToLatLon] gives for
    some region code: a coordinate of the region table, which lies
    within the declared ranges, or the inherited member for a region
    named [constructor] or [__proto__]. *)
Theorem guild_cache_valid w g v :
  reachable_after_load w ->
  guildGeo (this w) !! g = Some v ->
  (exists region, regionToLatLon region = Some v) /\
  match v with
  | Own ll => valid_coordinate ll
  | Inherited name => name = "constructor" \/ name = "__proto__"
  end.
Proof.
  intros (o & h & m & Hm & Hsteps) Hv.
  assert (Hinv : guild_cache_from_table w).
  { assert (H0 : guild_cache_from_table (load m (initial o h))).
    { intros g' v'. destruct (load_caches m (initial o h)) as (_ & -> & _). done. }
    clear Hv. induction Hsteps as [| w1 w2 w3 Hstep _ IH]; [done |].
    apply IH. by apply (guild_cache_from_table_step w1). }
  destruct (Hinv g v Hv) as [region Hr].
  split; [by exists region |].
  pose proof (region_value_shape region v Hr) as Hshape.
  destruct v as [ll | name]; by destruct Hshape.
Qed.

Lemma guild_cache_valid_witness : valid_coordinate (mkLatLon 39 (-77)).
Proof.
  apply (guild_cache_valid
           (patchedUpdateVoiceState
              (Examples.voice_server_update "g" "us-east123.discord.media:443")
              (Examples.just_loaded Examples.no_options)) "g" (Own (mkLatLon 39 (-77)))).
  - exists Examples.no_options, Examples.host_heap, 0. split; [by eexists |].
    apply rtc_once. apply step_activity, activity_updateVoiceState.
  - reflexivity.
Defined.
End RegionHints.

(** ** Load, unload and load again *)

Section LoadUnload.
Implicit Types (w : World) (m : ref).

(** X13. [load] on a live manager followed by [unload] leaves in the
    manager its nodes and, as entry points, the two functions it had
    before, each bound to the manager; every other manager and the
    three caches are as before. *)
Theorem unload_load_round_trip m0 m w mgr :
  heap w !! m = Some mgr ->
  heap (unload m0 (load m w))
    = <[m := mkManager (nodes mgr) (Bound (create mgr) m)
               (Bound (updateVoiceState mgr) m)]> (heap w)
  /\ nodeGeo (this (unload m0 (load m w))) = nodeGeo (this w)
  /\ guildGeo (this (unload m0 (load m w))) = guildGeo (this w)
  /\ selfGeo (this (unload m0 (load m w))) = selfGeo (this w).
Proof.
  intros Hmgr. destruct (load_patches m w mgr Hmgr) as (Hh & Hm & Hc & Hu).
  destruct (load_caches m w) as (Hn & Hg & Hs & _).
  rewrite unload_this. split; [| done].
  rewrite (unload_heap m0 (load m w) m
             (mkManager (nodes mgr) PatchedCreate PatchedUpdateVoiceState)
             (Bound (create mgr) m) (Bound (updateVoiceState mgr) m));
    try done.
  - rewrite Hh. cbn [nodes]. apply insert_insert_eq.
  - by rewrite Hh, lookup_insert_eq.
Qed.

Lemma unload_load_round_trip_witness :
  heap (unload 0 (Examples.just_loaded Examples.no_options)) !! 0
    = Some (mkManager [Examples.node_a; Examples.node_b]
              (Bound (HostFunction "create") 0)
              (Bound (HostFunction "updateVoiceState") 0)).
Proof.
  destruct (unload_load_round_trip 0 0 (initial Examples.no_options Examples.host_heap)
              (mkManager [Examples.node_a; Examples.node_b]
                 (HostFunction "create") (HostFunction "updateVoiceState"))
              eq_refl) as [Hh _].
  unfold Examples.just_loaded. rewrite Hh. apply lookup_insert_eq.
Defined.

(** X14. [load] is not idempotent: a second [load] on the same
    manager captures the interceptors of the first one as the
    originals, and [unload] then puts the interceptors, bound to the
    manager, back into the manager; the functions the host had are in
    neither place. *)
Theorem load_twice_captures_interceptors m0 m w mgr :
  heap w !! m = Some mgr ->
  originalCreate (this (load m (load m w))) = Some (Bound PatchedCreate m)
  /\ originalUpdateVoiceState (this (load m (load m w)))
     = Some (Bound PatchedUpdateVoiceState m)
  /\ heap (unload m0 (load m (load m w))) !! m
     = Some (mkManager (nodes mgr) (Bound PatchedCreate m)
               (Bound PatchedUpdateVoiceState m)).
Proof.
  intros Hmgr. destruct (load_patches m w mgr Hmgr) as (Hh & _).
  assert (Hmgr' : heap (load m w) !! m
                  = Some (mkManager (nodes mgr) PatchedCreate PatchedUpdateVoiceState))
    by (by rewrite Hh, lookup_insert_eq).
  destruct (load_patches m (load m w) _ Hmgr') as (Hh2 & Hm2 & Hc2 & Hu2).
  split; [done |]. split; [done |].
  rewrite (unload_heap m0 (load m (load m w)) m
             (mkManager (nodes mgr) PatchedCreate PatchedUpdateVoiceState)
             (Bound PatchedCreate m) (Bound PatchedUpdateVoiceState m));
    try done.
  - apply lookup_insert_eq.
  - by rewrite Hh2, lookup_insert_eq.
Qed.

Lemma load_twice_captures_interceptors_witness :
  originalCreate (this (load 0 (Examples.just_loaded Examples.no_options)))
    = Some (Bound PatchedCreate 0).
Proof.
  destruct (load_twice_captures_interceptors 0 0
              (initial Examples.no_options Examples.host_heap)
              (mkManager [Examples.node_a; Examples.node_b]
                 (HostFunction "create") (HostFunction "updateVoiceState"))
              eq_refl) as [Hc _].
  exact Hc.
Defined.

(** X15. The three caches are not cleared by a stop and a restart:
    after [unload] and a new [load] they hold what they held. *)
Theorem caches_survive_restart m0 m w :
  nodeGeo (this (load m (unload m0 w))) = nodeGeo (this w)
  /\ guildGeo (this (load m (unload m0 w))) = guildGeo (this w)
  /\ selfGeo (this (load m (unload m0 w))) = selfGeo (this w).
Proof.
  destruct (load_caches m (unload m0 w)) as (-> & -> & -> & _).
  by rewrite unload_this.
Qed.

(** X16. [load] adds one refresh pass to the detached work in every
    case, and sets a timer, a new one that it keeps in
    [this.interval], exactly when [refreshIntervalMs] is present and
    positive; with an absent, zero or negative interval the timers
    and [this.interval] are as before. *)
Theorem load_refresh_schedule m w :
  pending (load m w) = pending w ++ [RefreshAllNodeLocations]
  /\ match refreshIntervalMs (options (this w)) with
     | Some ms =>
         if (0 <? ms)%Z
         then interval (this (load m w)) = Some (next_timer w) /\
              timers (load m w) = {[next_timer w]} ∪ timers w
         else interval (this (load m w)) = interval (this w) /\
              timers (load m w) = timers w
     | None =>
         interval (this (load m w)) = interval (this w) /\
         timers (load m w) = timers w
     end.
Proof.
  destruct (load_before_patch m w)
    as (w2 & -> & _ & _ & _ & _ & _ & _ & Hp & _ & Ht).
  rewrite log_pending, log_this, log_timers.
  assert (Hsame : forall w3,
            w3 = match heap w2 !! m with
                 | Some mgr =>
                     set_heap
                       <[m := mkManager (nodes mgr) PatchedCreate PatchedUpdateVoiceState]>
                       (set_this (set_originals (Bound (create mgr) m)
                                    (Bound (updateVoiceState mgr) m)) w2)
                 | None => w2
                 end ->
            pending w3 = pending w2 /\ interval (this w3) = interval (this w2) /\
            timers w3 = timers w2).
  { intros w3 ->. by destruct (heap w2 !! m). }
  destruct (Hsame _ eq_refl) as (-> & -> & ->).
  split; [done |].
  destruct (refreshIntervalMs (options (this w))) as [ms |];
    [destruct (0 <? ms)%Z |]; done.
Qed.
End LoadUnload.

Section UnloadTwice.
Implicit Types (w : World) (m : ref).

(** X26. In every state reached after [load], a second [unload]
    changes nothing that the first one has set: the managers, the
    timers, the fields of the instance and the detached work are the
    same after two calls as after one. *)
Theorem unload_idempotent w m0 m1 :
  reachable_after_load w ->
  heap (unload m1 (unload m0 w)) = heap (unload m0 w)
  /\ timers (unload m1 (unload m0 w)) = timers (unload m0 w)
  /\ this (unload m1 (unload m0 w)) = this (unload m0 w)
  /\ pending (unload m1 (unload m0 w)) = pending (unload m0 w).
Proof.
  intros Hreach.
  destruct (reachable_after_load_loaded w Hreach)
    as (m & mgr & c & u & Hm & Hh & Hc & Hu).
  pose proof (unload_heap m0 w m mgr c u Hm Hh Hc Hu) as Hheap.
  split.
  - rewrite (unload_heap m1 (unload m0 w) m (mkManager (nodes mgr) c u) c u);
      rewrite ?unload_this; try done.
    + rewrite Hheap. cbn [nodes]. apply insert_insert_eq.
    + by rewrite Hheap, lookup_insert_eq.
  - rewrite !unload_this, !unload_pending, !unload_timers, unload_this.
    split; [| done].
    destruct (interval (this w)) as [t |]; [| done].
    apply set_eq. intros x. rewrite !elem_of_difference. tauto.
Qed.

Lemma unload_idempotent_witness :
  timers (unload 0 (unload 0 (Examples.just_loaded Examples.refreshing)))
    = timers (unload 0 (Examples.just_loaded Examples.refreshing)).
Proof.
  destruct (unload_idempotent (Examples.just_loaded Examples.refreshing) 0 0)
    as (_ & Ht & _); [| exact Ht].
  exists Examples.refreshing, Examples.host_heap, 0. split; [by eexists | done].
Defined.
End UnloadTwice.

(** ** Detached work and the node cache *)

Section Lookups.
Implicit Types (w : World) (ts : list task) (ns : list NodeOptions).















End Lookups.
Section RefreshPass.
Implicit Types (w : World) (ns : list NodeOptions) (k : string).

(** One turn of the loop of a refresh pass, on a node for which no
    inherited member is met. *)
Lemma refresh_nodes_head n ns w :
  plain_overrides (options (this w)) [n] ->
  exists w1,
    refresh_nodes (n :: ns) w = refresh_nodes ns w1
    /\ options (this w1) = options (this w)
    /\ forall k,
         nodeGeo (this w1) !! k
           = if decide (k = node_key n)
             then match override_coordinate (options (this w)) k with
                  | Some ll => Some ll
                  | None => nodeGeo (this w) !! k
                  end
             else nodeGeo (this w) !! k.
Proof.
  intros Hplain. specialize (Hplain n ltac:(left)).
  cbn [refresh_nodes]. unfold override_coordinate.
  destruct (nodeLocations_get (options (this w)) (node_key n))
    as [[[ll | region] | name] |] eqn:Hov; [| | done |].
  - exists (set_this (set_nodeGeo <[node_key n := ll]>) w).
    do 2 (split; [done |]). intros k. cbn.
    destruct (decide (k = node_key n)) as [-> | Hne].
    + by rewrite Hov, lookup_insert_eq.
    + by rewrite lookup_insert_ne.
  - cbn [normalizeLoc].
    destruct (regionToLatLon region) as [[ll | name] |] eqn:Hregion.
    + exists (set_this (set_nodeGeo <[node_key n := ll]>) w).
      do 2 (split; [done |]). intros k. cbn.
      destruct (decide (k = node_key n)) as [-> | Hne].
      * by rewrite Hov, Hregion, lookup_insert_eq.
      * by rewrite lookup_insert_ne.
    + by destruct (Hplain name).
    + exists w. do 2 (split; [done |]). intros k.
      destruct (decide (k = node_key n)) as [-> | Hne]; [| done].
      by rewrite Hov, Hregion.
  - exists (started [ResolveNodeLocation (node_key n) n] w).
    do 2 (split; [done |]). intros k.
    destruct (decide (k = node_key n)) as [-> | Hne]; [| done].
    by rewrite Hov.
Qed.

(** The node cache after one pass over [ns] that meets no inherited
    member: the keys of [ns] for which the options give a coordinate
    hold it, every other key holds what it held. *)
Lemma refresh_nodes_nodeGeo ns w :
  plain_overrides (options (this w)) ns ->
  exists w',
    refresh_nodes ns w = Some w' /\
    forall k,
      nodeGeo (this w') !! k
        = match override_coordinate (options (this w)) k with
          | Some ll => if bool_decide (k ∈ node_key <$> ns) then Some ll
                       else nodeGeo (this w) !! k
          | None => nodeGeo (this w) !! k
          end.
Proof.
  revert w. induction ns as [| n ns IH]; intros w Hplain.
  { exists w. split; [done |]. intros k.
    destruct (override_coordinate _ k); [| done].
    rewrite bool_decide_eq_false_2; [done | cbn; apply not_elem_of_nil]. }
  destruct (refresh_nodes_head n ns w) as (w1 & -> & Ho & Hhead).
  { intros n' ->%list_elem_of_singleton. apply Hplain. left. }
  destruct (IH w1) as (w' & Hrun & Hrest).
  { rewrite Ho. intros n' Hn'. apply Hplain. by right. }
  exists w'. split; [done |]. intros k.
  rewrite Hrest, Ho, Hhead, fmap_cons.
  destruct (override_coordinate (options (this w)) k) as [ll |] eqn:Hov.
  - destruct (decide (k = node_key n)) as [-> | Hne].
    + rewrite (bool_decide_eq_true_2 (node_key n ∈ node_key n :: _)) by left.
      by destruct (bool_decide _).
    + destruct (decide (k ∈ node_key <$> ns)) as [Hin | Hnot].
      * rewrite !bool_decide_eq_true_2; [done | by right | done].
      * rewrite !bool_decide_eq_false_2; [done | | done].
        intros [? | ?]%elem_of_cons; done.
  - by destruct (decide (k = node_key n)).
Qed.

(** When the read of [nodeLocations] under the key of a node gives an
    inherited member, the pass ends at that node: the error is
    logged, and the nodes that follow are not looked at. *)
Lemma refresh_nodes_inherited_key n ns w name :
  nodeLocations_get (options (this w)) (node_key n) = Some (Inherited name) ->
  refresh_nodes (n :: ns) w = Some (log (NodeGeoRefreshError TypeError) w).
Proof. intros Hov. cbn [refresh_nodes]. by rewrite Hov. Qed.

(** X18. A refresh pass that meets no inherited member (no read of
    [nodeLocations] under the key of a pool node gives one, and
    [regionToLatLon] gives none for a region code found there)
    completes, and every node of the pool for whose key the options
    give a coordinate then has that coordinate in the node cache,
    whatever stale entry was there and whatever the network does;
    the pass itself writes no other key (the other nodes get lookups
    of their own). *)
Theorem refresh_pass_applies_overrides net w m :
  the_manager w = Some m ->
  plain_overrides (options (this w)) (nodes m) ->
  exists w',
    run_task net RefreshAllNodeLocations w = Some w'
    /\ (forall n ll, n ∈ nodes m ->
          override_coordinate (options (this w)) (node_key n) = Some ll ->
          nodeGeo (this w') !! node_key n = Some ll)
    /\ (forall k, override_coordinate (options (this w)) k = None ->
          nodeGeo (this w') !! k = nodeGeo (this w) !! k).
Proof.
  intros Hm Hplain. cbn [run_task]. rewrite Hm.
  destruct (refresh_nodes_nodeGeo (nodes m) w Hplain) as (w' & Hrun & Hgeo).
  exists w'. split; [done |]. split.
  - intros n ll Hn Hov. rewrite Hgeo, Hov.
    rewrite bool_decide_eq_true_2; [done |]. apply list_elem_of_fmap. by exists n.
  - intros k Hov. by rewrite Hgeo, Hov.
Qed.

Lemma overridden_world_plain :
  plain_overrides (options (this Examples.overridden_world))
    [Examples.node_a; Examples.node_b].
Proof.
  intros n [-> | ->%list_elem_of_singleton]%elem_of_cons.
  - replace (nodeLocations_get _ _) with (Some (Own (RegionCode "Frankfurt")))
      by reflexivity.
    intros name. discriminate.
  - by replace (nodeLocations_get _ _) with (@None (member Location)) by reflexivity.
Qed.

Lemma refresh_pass_applies_overrides_witness :
  exists w',
    run_task Examples.string_payload_network RefreshAllNodeLocations
      Examples.overridden_world = Some w'
    /\ nodeGeo (this w') !! "a" = Some (mkLatLon 50.11 8.68).
Proof.
  destruct (refresh_pass_applies_overrides Examples.string_payload_network
              Examples.overridden_world
              (mkManager [Examples.node_a; Examples.node_b]
                 PatchedCreate PatchedUpdateVoiceState) eq_refl
              overridden_world_plain) as (w' & Hrun & Hov & _).
  exists w'. split; [exact Hrun |].
  apply (Hov Examples.node_a); [left | reflexivity].
Defined.
End RefreshPass.


(** ** More on the external geo lookup *)

Section LookupOrder.
Import GeoLookup.
Implicit Types (net : Network) (host : string).

(** X19. When the primary provider answers below status 400 with an
    object whose [success] is truthy and whose [latitude] and
    [longitude] are numbers, [geoByHost] fulfils with that coordinate
    and the secondary provider plays no part. *)
Theorem geoByHost_primary_first net host statusCode fields s la lo :
  net (IpWhoIs host) = Responded statusCode (JsonBody (JObject fields)) ->
  (statusCode < 400)%Z ->
  assoc "success" fields = Some s -> truthy s = true ->
  assoc "latitude" fields = Some (JNumber la) ->
  assoc "longitude" fields = Some (JNumber lo) ->
  geoByHost net host = Fulfilled (Some (mkLatLon la lo)).
Proof.
  intros Hnet Hstatus Hs Hts Hla Hlo.
  unfold geoByHost. cbn [geoByHost_urls]. unfold fetchJson at 1. rewrite Hnet.
  replace (statusCode >=? 400)%Z with false by lia.
  cbn [catch_undefined await truthy negb].
  unfold ipwhois_shape. cbn [has_property get].
  rewrite Hs, Hla, Hlo. cbn [truthy_prop as_number].
  rewrite Hts. by rewrite bool_decide_eq_true_2 by by eexists.
Qed.

Lemma geoByHost_primary_first_witness :
  geoByHost
    (fun u =>
       match u with
       | IpWhoIs _ =>
           Responded 200
             (JsonBody (JObject [("success", JBool true);
                                 ("latitude", JNumber 52.37); ("longitude", JNumber 4.9)]))
       | IpApi _ => TimedOut
       end) "198.51.100.4"
    = Fulfilled (Some (mkLatLon 52.37 4.9)).
Proof.
  apply (geoByHost_primary_first _ _ 200
           [("success", JBool true); ("latitude", JNumber 52.37); ("longitude", JNumber 4.9)]
           (JBool true));
    [reflexivity | lia | reflexivity | reflexivity | reflexivity | reflexivity].
Defined.

(** X20. When the request to the primary provider fails (no
    connection, a timeout, a status of 400 or more, a body that does
    not parse) and the secondary provider answers below status 400
    with an object that has no [success] property, a [status] equal
    to ['success'] and numbers as [lat] and [lon], [geoByHost] fulfils
    with the coordinate of the secondary provider. *)
Theorem geoByHost_secondary_after_failure net host e statusCode fields la lo :
  fetchJson net (IpWhoIs host) = Rejected e ->
  net (IpApi host) = Responded statusCode (JsonBody (JObject fields)) ->
  (statusCode < 400)%Z ->
  assoc "success" fields = None ->
  assoc "status" fields = Some (JString "success") ->
  assoc "lat" fields = Some (JNumber la) ->
  assoc "lon" fields = Some (JNumber lo) ->
  geoByHost net host = Fulfilled (Some (mkLatLon la lo)).
Proof.
  intros Hfail Hnet Hstatus Hnone Hs Hla Hlo.
  unfold geoByHost. cbn [geoByHost_urls]. rewrite Hfail.
  cbn [catch_undefined await]. unfold fetchJson at 1. rewrite Hnet.
  replace (statusCode >=? 400)%Z with false by lia.
  cbn [catch_undefined await truthy negb].
  unfold ipwhois_shape, ipapi_shape. cbn [has_property get].
  rewrite Hnone, Hs, Hla, Hlo. cbn [is_success_string as_number].
  rewrite bool_decide_eq_false_2 by (by intros [? ?]).
  by rewrite bool_decide_eq_true_2 by by eexists.
Qed.

Lemma geoByHost_secondary_after_failure_witness :
  geoByHost
    (fun u =>
       match u with
       | IpWhoIs _ => Responded 503 EmptyBody
       | IpApi _ =>
           Responded 200
             (JsonBody (JObject [("status", JString "success");
                                 ("lat", JNumber 48.86); ("lon", JNumber 2.35)]))
       end) "198.51.100.4"
    = Fulfilled (Some (mkLatLon 48.86 2.35)).
Proof.
  apply (geoByHost_secondary_after_failure _ _ (HttpError 503) 200
           [("status", JString "success"); ("lat", JNumber 48.86); ("lon", JNumber 2.35)]);
    [reflexivity | reflexivity | lia | reflexivity | reflexivity | reflexivity | reflexivity].
Defined.

(** X21. [resolveNodeLocation] is rejected in one case only: when
    the read of [nodeLocations] under the Node Key gives a member
    that the object inherits (a node named [constructor], say, and
    no override of its own), [normalizeLoc] throws a [TypeError]. In
    every other case it fulfils, with what the override gives or with
    the coordinate of the host or [undefined]: whatever the provider
    answers and whatever [geoByHost] throws, nothing of that is
    rejected past it. *)
Theorem resolveNodeLocation_rejects_on_inherited_key_only net o node :
  match nodeLocations_get o (node_key node) with
  | Some (Inherited _) => resolveNodeLocation net o node = Rejected TypeError
  | _ => exists r, resolveNodeLocation net o node = Fulfilled r
  end.
Proof. apply resolveNodeLocation_soft. Qed.

(** With an empty [nodeLocations], the lookup for a node named
    [constructor] is rejected, on any network. *)
Lemma resolveNodeLocation_constructor net :
  resolveNodeLocation net (mkOptions (Some ∅) None None false)
    (mkNode "203.0.113.7" (Some "constructor"))
    = Rejected TypeError.
Proof. reflexivity. Qed.

(** X22. [getSelfLocation] always fulfils, with a coordinate or with
    [undefined], on every answer of the two providers, payloads that
    are not objects included. *)
Theorem getSelfLocation_always_fulfils net :
  exists r, getSelfLocation net = Fulfilled r.
Proof.
  unfold getSelfLocation.
  pose proof (fetchJson_settles net (IpWhoIs "")) as H1.
  pose proof (fetchJson_settles net (IpApi "")) as H2.
  destruct (fetchJson net (IpWhoIs "")) as [data | e |]; cbn [catch_undefined await];
    [| | done].
  - destruct (self_ipwhois_shape (Some data)) as [ll |]; [by eexists |].
    destruct (fetchJson net (IpApi "")) as [data2 | e2 |]; cbn; [by eexists .. | done].
  - cbn [self_ipwhois_shape].
    destruct (fetchJson net (IpApi "")) as [data2 | e2 |]; cbn; [by eexists .. | done].
Qed.
End LookupOrder.

(** ** The cached self-location *)

Section SelfLocation.
Implicit Types (w : World) (opts : PlayerOptions).

Lemma patchedCreate_cold_self w m opts :
  the_manager w = Some m -> nodes m ≠ [] ->
  pinned opts = false ->
  selfGeo (this w) = None ->
  guildGeo (this w) !! guildId opts = None ->
  getGuildLocation (options (this w)) = None ->
  snd (patchedCreate opts w) = [GetSelfLocation; GetSelfLocation].
Proof.
  intros Hm Hne Hpin Hself Hguild Hres.
  assert (Htarget : snd (target_of (guildId opts) w) = [GetSelfLocation]).
  { unfold target_of, getTargetForGuild, getSelfLocationCached.
    rewrite !snd_bind. cbn [read ret fst snd app]. rewrite Hguild.
    rewrite !snd_bind. cbn [read ret fst snd app]. rewrite Hres.
    rewrite !snd_bind. cbn [read ret fst snd app]. rewrite Hself.
    rewrite !snd_bind. cbn. done. }
  unfold patchedCreate, patched_options. rewrite Hpin. cbn [negb].
  rewrite !snd_bind, (pickBestNodeIdentifier_started w m) by done.
  rewrite selection_target_of_guild, Hself, Htarget. cbn [read fst snd app].
  destruct (fst (pickBestNodeIdentifier _ w)) as [id |];
    [destruct (Str.truthy id) |]; destruct (originalCreate (this w)); done.
Qed.

(** X23. On an instance with a non-empty pool, no cached
    self-location, no cached coordinate for the guild and no
    resolver, one call of the patched [create] without a pinned node
    starts two self lookups; when the first one completes with a
    coordinate the self-location is cached, and when the second one
    then completes without a coordinate the cached self-location is
    cleared again. *)
Theorem self_location_can_be_lost w m opts net_up net_down ll :
  the_manager w = Some m -> nodes m ≠ [] ->
  pinned opts = false ->
  selfGeo (this w) = None ->
  guildGeo (this w) !! guildId opts = None ->
  getGuildLocation (options (this w)) = None ->
  GeoLookup.getSelfLocation net_up = Fulfilled (Some ll) ->
  GeoLookup.getSelfLocation net_down = Fulfilled None ->
  let w1 := started (snd (patchedCreate opts w)) w in
  exists w2 w3,
    pending w1 = pending w ++ GetSelfLocation :: [GetSelfLocation]
    /\ run_task net_up GetSelfLocation
         (set_pending (fun _ => pending w ++ [GetSelfLocation]) w1) = Some w2
    /\ selfGeo (this w2) = Some ll
    /\ pending w2 = pending w ++ GetSelfLocation :: []
    /\ run_task net_down GetSelfLocation
         (set_pending (fun _ => pending w ++ []) w2) = Some w3
    /\ selfGeo (this w3) = None.
Proof.
  intros Hm Hne Hpin Hself Hguild Hres Hup Hdown w1. subst w1.
  rewrite (patchedCreate_cold_self w m opts) by done.
  cbn [run_task]. rewrite Hup, Hdown.
  eexists; eexists. split; [done |]. split; [reflexivity |].
  split; [done |]. split; [done |]. split; [reflexivity | done].
Qed.

Lemma self_location_can_be_lost_witness :
  exists w2 w3,
    run_task Examples.self_network GetSelfLocation
      (set_pending (fun _ => [] ++ [GetSelfLocation])
         (started (snd (patchedCreate (Examples.player "g" None) Examples.cold_world))
            Examples.cold_world)) = Some w2
    /\ selfGeo (this w2) = Some (mkLatLon 52.37 4.9)
    /\ run_task (fun _ => GeoLookup.TimedOut) GetSelfLocation
         (set_pending (fun _ => [] ++ []) w2) = Some w3
    /\ selfGeo (this w3) = None.
Proof.
  destruct (self_location_can_be_lost Examples.cold_world
              (mkManager [Examples.node_b; Examples.node_a]
                 PatchedCreate PatchedUpdateVoiceState)
              (Examples.player "g" None) Examples.self_network
              (fun _ => GeoLookup.TimedOut) (mkLatLon 52.37 4.9)
              eq_refl ltac:(done) eq_refl eq_refl eq_refl eq_refl eq_refl eq_refl)
    as (w2 & w3 & _ & Hup & Hself & _ & Hdown & Hlost).
  by exists w2, w3.
Defined.
End SelfLocation.
